(** * vdsm storage guard: [lib/vdsm/storage/guarded.py]

    A shallow embedding of the lock-ordering context manager [context] and of
    the [AbstractLock] comparison contract, with the properties of the
    acquisition / rollback / release protocol. *)

From Stdlib Require Import List String Ascii Bool Arith Lia ZArith.
From Stdlib Require Import Permutation Sorting.Sorted RelationClasses.
From Stdlib Require Import Structures.OrdersEx.
From Equations Require Import Equations.
From Equations.Prop Require Import Logic.
Import ListNotations.

Set Implicit Arguments.

(* ===================================================================== *)
(** * Python values used by the module *)
(* ===================================================================== *)

Module PyStr.

(** [a == b] and [a < b] on [str]: equality, and the lexicographic order on
    the character codes. *)
Definition eq (a b : string) : bool := String.eqb a b.
Definition lt (a b : string) : bool := String.ltb a b.

End PyStr.

(** [list.pop()]: removes and returns the last item.  [None] stands for the
    empty list, on which the [while self._held_locks] test of the caller is
    false and [pop] is not reached. *)
Definition pop {A : Type} (l : list A) : option (A * list A) :=
  match rev l with
  | [] => None
  | x :: r => Some (x, rev r)
  end.

(** Exceptions.  [except Exception] and [except ReleaseError] only look at
    the class of what was raised: inside the [Exception] hierarchy or not
    ([KeyboardInterrupt], [SystemExit], [GeneratorExit] are not), and
    [ReleaseError] or not.  [ReleaseError(errors)] carries its argument. *)
#[warnings="-register-all"]
Inductive exn : Type :=
| BaseExc (cls : string)
| Exc (cls : string)
| ReleaseError (errors : list exn).

Definition is_Exception (e : exn) : bool :=
  match e with
  | BaseExc _ => false
  | Exc _ => true
  | ReleaseError _ => true
  end.

Definition is_ReleaseError (e : exn) : bool :=
  match e with
  | ReleaseError _ => true
  | _ => false
  end.

(** What a call or a statement does: returns a value or raises. *)
Inductive outcome (A : Type) : Type :=
| Return (a : A)
| Raise (e : exn).
Arguments Return {A} a.
Arguments Raise {A} e.

(* ===================================================================== *)
(** * The lock capability contract: [AbstractLock] *)
(* ===================================================================== *)

(** A concrete lock, seen through what the guard reads of it:
    [type(self)], [ns], [name] and [mode]. *)
Record Lock : Type := mkLock {
  ltype : string;
  ns    : string;
  name  : string;
  mode  : string
}.

Module AbstractLock.

(** [_key]: [type(self), self.ns, self.name, self.mode]. *)
Definition _key (l : Lock) : string * string * string * string :=
  (ltype l, ns l, name l, mode l).

(** [==] on 4-tuples: every component equal. *)
Definition tuple4_eq (a b : string * string * string * string) : bool :=
  let '(a1, a2, a3, a4) := a in
  let '(b1, b2, b3, b4) := b in
  PyStr.eq a1 b1 && PyStr.eq a2 b2 && PyStr.eq a3 b3 && PyStr.eq a4 b4.

(** [<] on 2-tuples: the first position where the items differ under [==]
    decides with [<]; with no such position, tuples of the same length are
    not smaller. *)
Definition tuple2_lt (a b : string * string) : bool :=
  if negb (PyStr.eq (fst a) (fst b)) then PyStr.lt (fst a) (fst b)
  else if negb (PyStr.eq (snd a) (snd b)) then PyStr.lt (snd a) (snd b)
  else false.

Definition __eq__ (self other : Lock) : bool :=
  tuple4_eq (_key self) (_key other).

Definition __ne__ (self other : Lock) : bool :=
  negb (__eq__ self other).

Definition __lt__ (self other : Lock) : bool :=
  tuple2_lt (ns self, name self) (ns other, name other).

Section Hash.
(** The builtin [hash] on key tuples. *)
Variable hash : string * string * string * string -> Z.

Definition __hash__ (self : Lock) : Z := hash (_key self).
End Hash.

End AbstractLock.

Import AbstractLock.

(** The order of the contract, in the words of the specification: a
    (namespace, name) pair is lexicographically smaller than another when its
    namespace is smaller, or the namespaces are the same and its name is
    smaller. *)
Definition spec_lex_lt (a b : string * string) : Prop :=
  PyStr.lt (fst a) (fst b) = true \/
  (fst a = fst b /\ PyStr.lt (snd a) (snd b) = true).

(** Not greater: smaller or the same pair.  A sequence of locks is
    non-decreasing when each lock is [key_le] every later one. *)
Definition spec_lex_le (a b : string * string) : Prop :=
  spec_lex_lt a b \/ a = b.

Definition sort_key (l : Lock) : string * string := (ns l, name l).

Definition key_le (a b : Lock) : Prop :=
  spec_lex_le (sort_key a) (sort_key b).

Definition key_lt (a b : Lock) : Prop :=
  spec_lex_lt (sort_key a) (sort_key b).

(* ===================================================================== *)
(** * [set(locks)] and [sorted(...)] *)
(* ===================================================================== *)

(** [set(locks)] adds the items one by one; an item equal (same hash, [==])
    to one already in the set is not added. *)
Fixpoint set_add_all (acc : list Lock) (locks : list Lock) : list Lock :=
  match locks with
  | [] => acc
  | x :: rest =>
      set_add_all (if existsb (__eq__ x) acc then acc else acc ++ [x]) rest
  end.

(** [sorted] is a stable sort that compares with [<] only.  As a function of
    its input it is the insertion of each item before the first item of the
    sorted rest that is not smaller than it: items that [<] does not order
    keep their input order. *)
Fixpoint sorted_insert (x : Lock) (l : list Lock) : list Lock :=
  match l with
  | [] => [x]
  | y :: t => if __lt__ y x then y :: sorted_insert x t else x :: y :: t
  end.

Fixpoint sorted (l : list Lock) : list Lock :=
  match l with
  | [] => []
  | x :: t => sorted_insert x (sorted t)
  end.

(* ===================================================================== *)
(** * The guard: [context] *)
(* ===================================================================== *)

(** The attributes of a [context] instance. *)
Record context : Type := mkContext {
  _locks : list Lock;
  _held_locks : list Lock
}.

(** Calls made on the locks, with what each call did ([None]: returned). *)
Inductive event : Type :=
| EvAcquire (lock : Lock) (r : option exn)
| EvRelease (lock : Lock) (r : option exn).

(** Records emitted on the [storage.guarded] logger: [log.error(msg, lock)]
    and [log.exception(msg)], which attaches the exception being handled. *)
Inductive record : Type :=
| LogError (msg : string) (lock : Lock)
| LogException (msg : string) (exc : exn).

Definition event_lock (ev : event) : Lock :=
  match ev with
  | EvAcquire l _ => l
  | EvRelease l _ => l
  end.

Definition is_acquire (ev : event) : bool :=
  match ev with EvAcquire _ _ => true | EvRelease _ _ => false end.

Definition is_release (ev : event) : bool :=
  match ev with EvAcquire _ _ => false | EvRelease _ _ => true end.

Definition event_result (ev : event) : option exn :=
  match ev with
  | EvAcquire _ r => r
  | EvRelease _ r => r
  end.

(** The locks of the [acquire()] calls, and of the [release()] calls, of a
    sequence of calls, in call order. *)
Definition acquired (evs : list event) : list Lock :=
  map event_lock (filter is_acquire evs).

Definition released (evs : list event) : list Lock :=
  map event_lock (filter is_release evs).

(** The errors raised by the failed calls of a sequence, in call order. *)
Fixpoint failures (evs : list event) : list exn :=
  match evs with
  | [] => []
  | ev :: rest =>
      match event_result ev with
      | Some e => e :: failures rest
      | None => failures rest
      end
  end.

(** Truth value of what [__exit__] returns: [None] (PyNone) or a bool. *)
Definition truthy (r : option bool) : bool :=
  match r with
  | Some b => b
  | None => false
  end.

(** The guard object, the world [W] of the locks, the calls made on the
    locks and the log. *)
Record machine (W : Type) : Type := mkMachine {
  self : context;
  world : W;
  calls : list event;
  log : list record
}.

(** A guard object before [__init__], in a world that counts the calls made
    on the locks, and a guard with a given working list and held list. *)
Definition blank : machine nat := mkMachine (mkContext [] []) 0 [] [].

Definition guard (locks held : list Lock) : machine nat :=
  mkMachine (mkContext locks held) 0 [] [].

(** ** Sample locks and lock behaviours

    Three volume locks, and lock implementations on a world that counts the
    calls made: an [acquire()] that fails on the lock named [bad], a
    [release()] that always fails with an error naming the lock, and a
    [release()] interrupted by [KeyboardInterrupt]. *)
Definition vol (n : string) : Lock := mkLock "VolumeLock" "vol" n "exclusive".

Definition acquire_failing_on (bad : string) (l : Lock) (w : nat) :
  nat * option exn :=
  (S w, if String.eqb (name l) bad then Some (Exc "AcquireError") else None).

Definition release_failing (l : Lock) (w : nat) : nat * option exn :=
  (S w, Some (Exc (String.append "CannotRelease:" (name l)))).

Definition release_interrupted (l : Lock) (w : nat) : nat * option exn :=
  (S w, Some (BaseExc "KeyboardInterrupt")).

Definition acquire_ok (l : Lock) (w : nat) : nat * option exn := (S w, None).

Definition release_ok (l : Lock) (w : nat) : nat * option exn := (S w, None).

(** A guard on the locks a, b, c before entry, and a guard on a, b that
    holds both. *)
Definition abc_guard : machine nat :=
  guard [vol "a"; vol "b"; vol "c"] [].

Definition ab_held : machine nat :=
  guard [vol "a"; vol "b"] [vol "a"; vol "b"].

(** The locks of the [acquire()] calls that returned, in call order. *)
Definition is_ok_acquire (ev : event) : bool :=
  match ev with
  | EvAcquire _ None => true
  | _ => false
  end.

Definition acquired_ok (evs : list event) : list Lock :=
  map event_lock (filter is_ok_acquire evs).

(** The errors raised by the [release()] calls of a sequence of calls, and
    the condition that all of them are inside [Exception]. *)
Definition release_failures (evs : list event) : list exn :=
  failures (filter is_release evs).

Definition release_errors_Exception (evs : list event) : Prop :=
  Forall (fun e => is_Exception e = true) (release_failures evs).

(** ** The base class itself

    [AbstractLock.ns], [name], [mode], [acquire] and [release] raise
    [NotImplementedError]; a concrete class overrides them.  A lock object
    is its class and, for each property, the value its class gives it, or
    [None] where the property of [AbstractLock] is left in place. *)
Definition NotImplementedError : exn := Exc "NotImplementedError".

Record LockObject : Type := mkLockObject {
  cls : string;
  ns_prop : option string;
  name_prop : option string;
  mode_prop : option string
}.

Definition get_prop (p : option string) : outcome string :=
  match p with
  | Some v => Return v
  | None => Raise NotImplementedError
  end.

Definition and_then {A B : Type} (r : outcome A) (k : A -> outcome B) :
  outcome B :=
  match r with
  | Return a => k a
  | Raise e => Raise e
  end.

(** [_key], [__eq__], [__ne__], [__lt__] and [__hash__] on lock objects:
    the attribute reads come first, left to right, then the tuple
    operation. *)
Definition object_key (o : LockObject) :
  outcome (string * string * string * string) :=
  and_then (get_prop (ns_prop o)) (fun n =>
  and_then (get_prop (name_prop o)) (fun m =>
  and_then (get_prop (mode_prop o)) (fun d =>
  Return (cls o, n, m, d)))).

Definition object_eq (self other : LockObject) : outcome bool :=
  and_then (object_key self) (fun k1 =>
  and_then (object_key other) (fun k2 =>
  Return (tuple4_eq k1 k2))).

Definition object_ne (self other : LockObject) : outcome bool :=
  and_then (object_eq self other) (fun b => Return (negb b)).

Definition object_lt (self other : LockObject) : outcome bool :=
  and_then (get_prop (ns_prop self)) (fun n1 =>
  and_then (get_prop (name_prop self)) (fun m1 =>
  and_then (get_prop (ns_prop other)) (fun n2 =>
  and_then (get_prop (name_prop other)) (fun m2 =>
  Return (tuple2_lt (n1, m1) (n2, m2)))))).

Definition object_hash (hash : string * string * string * string -> Z)
  (o : LockObject) : outcome Z :=
  and_then (object_key o) (fun k => Return (hash k)).

(** The lock with a given key, and the object of a lock. *)
Definition lock_of_key (k : string * string * string * string) : Lock :=
  let '(t, n, m, d) := k in mkLock t n m d.

Definition object_of (l : Lock) : LockObject :=
  mkLockObject (ltype l) (Some (ns l)) (Some (name l)) (Some (mode l)).

(** [set(locks)] hashes each item as it adds it, in input order, and the
    hash reads the key: the first object whose key cannot be read stops the
    construction of the set. *)
Fixpoint hash_items (objs : list LockObject) : outcome (list Lock) :=
  match objs with
  | [] => Return []
  | o :: rest =>
      and_then (object_key o) (fun k =>
      and_then (hash_items rest) (fun ls =>
      Return (lock_of_key k :: ls)))
  end.

(** [acquire] and [release] of a class that leaves the methods of
    [AbstractLock] in place. *)
Definition abstract_acquire (W : Type) (l : Lock) (w : W) : W * option exn :=
  (w, Some NotImplementedError).

Definition abstract_release (W : Type) (l : Lock) (w : W) : W * option exn :=
  (w, Some NotImplementedError).

Section Guard.

(** The locks are external: [acquire] and [release] act on a world the guard
    does not see and return or raise.  [set_order] is the
    iteration order of a [set] holding the given items. *)
Variable W : Type.
Variable acquire : Lock -> W -> W * option exn.
Variable release : Lock -> W -> W * option exn.
Variable set_order : list Lock -> list Lock.

Definition py_set (locks : list Lock) : list Lock :=
  set_order (set_add_all [] locks).

Definition M (A : Type) : Type := machine W -> machine W * outcome A.

Definition ret {A : Type} (a : A) : M A := fun m => (m, Return a).

Definition raise {A : Type} (e : exn) : M A := fun m => (m, Raise e).

Definition bind {A B : Type} (c : M A) (k : A -> M B) : M B :=
  fun m =>
    match c m with
    | (m1, Return a) => k a m1
    | (m1, Raise e) => (m1, Raise e)
    end.

(** [try: c  except <class>: h e]; [catches] is the class test. *)
Definition try_except {A : Type} (c : M A) (catches : exn -> bool)
  (h : exn -> M A) : M A :=
  fun m =>
    match c m with
    | (m1, Return a) => (m1, Return a)
    | (m1, Raise e) => if catches e then h e m1 else (m1, Raise e)
    end.

Definition set_held (held : list Lock) (m : machine W) : machine W :=
  mkMachine (mkContext (_locks (self m)) held) (world m) (calls m) (log m).

Definition call_acquire (lock : Lock) : M unit :=
  fun m =>
    let (w, r) := acquire lock (world m) in
    let m1 := mkMachine (self m) w (calls m ++ [EvAcquire lock r]) (log m) in
    match r with
    | None => (m1, Return tt)
    | Some e => (m1, Raise e)
    end.

Definition call_release (lock : Lock) : M unit :=
  fun m =>
    let (w, r) := release lock (world m) in
    let m1 := mkMachine (self m) w (calls m ++ [EvRelease lock r]) (log m) in
    match r with
    | None => (m1, Return tt)
    | Some e => (m1, Raise e)
    end.

Definition emit (r : record) : M unit :=
  fun m => (mkMachine (self m) (world m) (calls m) (log m ++ [r]), Return tt).

Definition held_append (lock : Lock) : M unit :=
  fun m => (set_held (_held_locks (self m) ++ [lock]) m, Return tt).

Notation "x <- c ;; k" := (bind c (fun x => k))
  (at level 61, c at next level, right associativity).
Notation "c ;;; k" := (bind c (fun _ => k))
  (at level 61, right associativity).

(** [__init__]. *)
Definition __init__ (locks : list Lock) : M unit :=
  fun m =>
    (mkMachine (mkContext (sorted (py_set locks)) []) (world m) (calls m)
       (log m), Return tt).

(** The [while self._held_locks] loop of [_release]. *)
Equations? release_loop (errors : list exn) (m : machine W) :
  machine W * outcome (list exn) by wf (List.length (_held_locks (self m))) lt :=
release_loop errors m with inspect (pop (_held_locks (self m))) := {
  | exist _ None _ => (m, Return errors)
  | exist _ (Some (lock, rest)) Hpop
      with inspect (call_release lock (set_held rest m)) := {
      | exist _ (m2, Return _) Hcall => release_loop errors m2
      | exist _ (m2, Raise e) Hcall =>
          if is_Exception e then release_loop (errors ++ [e]) m2
          else (m2, Raise e) } }.
Proof.
  all: unfold call_release in Hcall; simpl in Hcall;
    destruct (release lock (world m)) as [w [e'|]]; inversion Hcall; subst;
    simpl; unfold pop in Hpop;
    destruct (rev (_held_locks (self m))) as [|x r] eqn:E; inversion Hpop; subst;
    apply (f_equal (@List.length Lock)) in E; rewrite length_rev in E; rewrite E;
    rewrite length_rev; simpl; lia.
Qed.

(** [_release]. *)
Definition _release : M unit :=
  errors <- release_loop [] ;;
  match errors with
  | [] => ret tt
  | _ :: _ => raise (ReleaseError errors)
  end.

(** The [for lock in self._locks] loop of [__enter__]. *)
Fixpoint enter_loop (todo : list Lock) : M unit :=
  match todo with
  | [] => ret tt
  | lock :: rest =>
      try_except (call_acquire lock) (fun _ => true)
        (fun exc =>
           emit (LogError "Error acquiring lock %r" lock) ;;;
           try_except _release is_ReleaseError
             (fun err => emit (LogException "Error releasing locks" err)) ;;;
           raise exc) ;;;
      held_append lock ;;;
      enter_loop rest
  end.

(** [__enter__]; the value returned is [self]. *)
Definition __enter__ : M unit :=
  fun m => enter_loop (_locks (self m)) m.

(** [__exit__]; [exc] is the exception of the body ([exc_type is None] when
    there is none). *)
Definition __exit__ (exc : option exn) : M (option bool) :=
  try_except (_release ;;; ret None) is_ReleaseError
    (fun err =>
       match exc with
       | None => raise err
       | Some _ =>
           emit (LogException "Error releasing locks" err) ;;;
           ret (Some false)
       end).

(** What the caller of a [with] statement observes when the block ended
    with [exc] ([None]: normally) and [__exit__] ended with [r]: what
    [__exit__] raises, else the exception of the block unless [__exit__]
    returned a true value. *)
Definition exit_observed (exc : option exn) (r : outcome (option bool)) :
  outcome unit :=
  match r with
  | Raise e => Raise e
  | Return v =>
      match exc with
      | Some e => if truthy v then Return tt else Raise e
      | None => Return tt
      end
  end.

(** [with context(locks): body].  The body acts on the world of the locks
    only. *)
Definition with_context (locks : list Lock) (body : W -> W * option exn) :
  M unit :=
  __init__ locks ;;;
  __enter__ ;;;
  fun m =>
    let (w, exc) := body (world m) in
    let (m2, r) := __exit__ exc (mkMachine (self m) w (calls m) (log m)) in
    (m2, exit_observed exc r).

(** The calls made, and the records logged, between two machine states. *)
Definition new_calls (m m' : machine W) : list event :=
  skipn (List.length (calls m)) (calls m').

Definition new_log (m m' : machine W) : list record :=
  skipn (List.length (log m)) (log m').

(** Entry stopped by the failure [e] of the [k]-th [acquire()]: [e] is what
    is raised, the locks released are the first [k-1] in reverse order, and
    no lock is held. *)
Definition rollback_claim (m m' : machine W) (r : outcome unit) (k : nat)
  (e : exn) : Prop :=
  r = Raise e /\
  released (new_calls m m') = rev (firstn (k - 1) (_locks (self m))) /\
  _held_locks (self m') = [].

(** A teardown pass that started with [held] and ended with [held'] after
    the calls [evs]: the locks released are the ones popped, last first, one
    call each, and a lock whose [release()] was called is no longer held. *)
Definition teardown_inv (held held' : list Lock) (evs : list event) : Prop :=
  held = held' ++ rev (released evs) /\
  (NoDup held ->
   NoDup (released evs) /\
   forall l, In l (released evs) -> ~ In l held').

Definition is_ReleaseError_outcome (A : Type) (r : outcome A) : bool :=
  match r with
  | Raise e => is_ReleaseError e
  | Return _ => false
  end.

(** How a teardown pass over the calls [evs] ended: the loop ran until no
    lock was held and the pass returned ([PassClean]) or raised its own
    [ReleaseError] of the collected errors ([PassErrors]), or a release
    error outside [Exception] left the loop ([PassAborted]). *)
Inductive pass_end (evs : list event) : outcome unit -> Prop :=
| PassClean : failures evs = [] -> pass_end evs (Return tt)
| PassErrors : failures evs <> [] ->
    pass_end evs (Raise (ReleaseError (failures evs)))
| PassAborted (e : exn) (evs0 : list event) (l : Lock) (w : W) :
    is_Exception e = false ->
    evs = evs0 ++ [EvRelease l (Some e)] ->
    snd (release l w) = Some e ->
    pass_end evs (Raise e).

(** Every error a [release()] can raise is inside the [Exception]
    hierarchy. *)
Definition release_raises_Exception : Prop :=
  forall lock w e, snd (release lock w) = Some e -> is_Exception e = true.

(** A recorded call is sound when its result is what the lock returned or
    raised in some world. *)
Definition event_sound (ev : event) : Prop :=
  match ev with
  | EvAcquire l r => exists w, snd (acquire l w) = r
  | EvRelease l r => exists w, snd (release l w) = r
  end.

(** [__init__] on lock objects: [set(locks)] hashes the objects, and what
    follows works on their keys. *)
Definition object_init (objs : list LockObject) : M unit :=
  fun m =>
    match hash_items objs with
    | Raise e => (m, Raise e)
    | Return ls => __init__ ls m
    end.

(* ===================================================================== *)
(** * Order and equality of locks *)
(* ===================================================================== *)

Lemma str_compare_OT (a b : string) :
  String.compare a b = String_as_OT.compare a b.
Proof.
  revert b; induction a as [|c a IH]; intros [|d b]; simpl; trivial.
Qed.

Lemma str_lt_iff (a b : string) :
  PyStr.lt a b = true <-> String_as_OT.lt a b.
Proof.
  unfold PyStr.lt, String.ltb, String_as_OT.lt. rewrite str_compare_OT.
  destruct (String_as_OT.compare a b); split; congruence.
Qed.

Lemma str_eq_iff (a b : string) : PyStr.eq a b = true <-> a = b.
Proof. apply String.eqb_eq. Qed.

Lemma str_lt_irrefl (a : string) : PyStr.lt a a = false.
Proof.
  destruct (PyStr.lt a a) eqn:E; trivial.
  apply str_lt_iff in E. exfalso. exact (StrictOrder_Irreflexive a E).
Qed.

Lemma str_lt_trans (a b c : string) :
  PyStr.lt a b = true -> PyStr.lt b c = true -> PyStr.lt a c = true.
Proof. rewrite !str_lt_iff. apply StrictOrder_Transitive. Qed.

Lemma str_lt_total (a b : string) :
  PyStr.lt a b = true \/ a = b \/ PyStr.lt b a = true.
Proof.
  rewrite !str_lt_iff.
  destruct (String_as_OT.compare_spec a b) as [H|H|H]; auto.
Qed.

Lemma eq_spec (x y : Lock) : __eq__ x y = true <-> x = y.
Proof.
  destruct x as [t1 n1 m1 o1], y as [t2 n2 m2 o2].
  unfold __eq__, _key, tuple4_eq; simpl.
  rewrite !andb_true_iff, !str_eq_iff. split.
  - intros [[[-> ->] ->] ->]. reflexivity.
  - intros H. inversion H. auto.
Qed.

Lemma lt_spec (x y : Lock) :
  __lt__ x y = true <-> spec_lex_lt (ns x, name x) (ns y, name y).
Proof.
  unfold __lt__, tuple2_lt, spec_lex_lt; simpl.
  destruct (PyStr.eq (ns x) (ns y)) eqn:E1; simpl.
  - apply str_eq_iff in E1. rewrite E1.
    destruct (PyStr.eq (name x) (name y)) eqn:E2; simpl.
    + apply str_eq_iff in E2. rewrite E2, !str_lt_irrefl.
      split; [discriminate | intros [H | [_ H]]; discriminate].
    + rewrite str_lt_irrefl. split; [auto | intros [H | [_ H]]; congruence].
  - split; [auto |]. intros [H | [H _]]; trivial.
    apply str_eq_iff in H. congruence.
Qed.


Lemma spec_lex_lt_irrefl (a : string * string) : ~ spec_lex_lt a a.
Proof.
  intros [H | [_ H]]; rewrite str_lt_irrefl in H; discriminate.
Qed.

Lemma spec_lex_lt_trans (a b c : string * string) :
  spec_lex_lt a b -> spec_lex_lt b c -> spec_lex_lt a c.
Proof.
  unfold spec_lex_lt.
  intros [H1 | [E1 H1]] [H2 | [E2 H2]].
  - left. eapply str_lt_trans; eauto.
  - left. rewrite <- E2. trivial.
  - left. rewrite E1. trivial.
  - right. split; [congruence | eapply str_lt_trans; eauto].
Qed.

Lemma spec_lex_lt_total (a b : string * string) :
  spec_lex_lt a b \/ a = b \/ spec_lex_lt b a.
Proof.
  destruct a as [a1 a2], b as [b1 b2]. unfold spec_lex_lt; simpl.
  destruct (str_lt_total a1 b1) as [H | [-> | H]]; auto.
  destruct (str_lt_total a2 b2) as [K | [-> | K]]; auto.
Qed.



(* ===================================================================== *)
(** * The teardown pass: [_release] *)
(* ===================================================================== *)

Lemma pop_nil (A : Type) : pop (@nil A) = None.
Proof. reflexivity. Qed.

Lemma pop_snoc (A : Type) (l : list A) (x : A) : pop (l ++ [x]) = Some (x, l).
Proof. unfold pop. rewrite rev_app_distr. simpl. rewrite rev_involutive. reflexivity. Qed.

Lemma release_loop_step (errors : list exn) (m : machine W) :
  release_loop errors m =
  match pop (_held_locks (self m)) with
  | None => (m, Return errors)
  | Some (lock, rest) =>
      match call_release lock (set_held rest m) with
      | (m2, Return _) => release_loop errors m2
      | (m2, Raise e) =>
          if is_Exception e then release_loop (errors ++ [e]) m2
          else (m2, Raise e)
      end
  end.
Proof.
  funelim (release_loop errors m).
  - rewrite e. reflexivity.
  - rewrite Hpop, Hcall. congruence.
  - rewrite Hpop, Hcall. destruct (is_Exception e); congruence.
Qed.

(** What one run of the loop does, whatever the releases do: it only makes
    [release()] calls, on the locks it popped, last held first; the locks it
    did not reach are still held; it ends normally with the held list empty
    and every error collected, or on a release error outside [Exception]. *)
Lemma release_loop_inv (held : list Lock) :
  forall errors m m' r,
    _held_locks (self m) = held ->
    release_loop errors m = (m', r) ->
    exists evs,
      calls m' = calls m ++ evs /\
      forallb is_release evs = true /\
      held = _held_locks (self m') ++ rev (map event_lock evs) /\
      _locks (self m') = _locks (self m) /\
      log m' = log m /\
      match r with
      | Return es => _held_locks (self m') = [] /\ es = errors ++ failures evs
      | Raise e =>
          is_Exception e = false /\
          exists evs0 l w,
            evs = evs0 ++ [EvRelease l (Some e)] /\
            snd (release l w) = Some e
      end.
Proof.
  induction held as [|x h IH] using rev_ind; intros errors m m' r Hh Hrun;
    rewrite release_loop_step, Hh in Hrun.
  - rewrite pop_nil in Hrun. inversion Hrun; subst. exists []. simpl.
    rewrite !app_nil_r. repeat split; auto.
  - rewrite pop_snoc in Hrun. unfold call_release in Hrun. simpl in Hrun.
    destruct (release x (world m)) as [w [e|]] eqn:R.
    + destruct (is_Exception e) eqn:Ee.
      * apply IH in Hrun; [|reflexivity].
        destruct Hrun as (evs & Hc & Hr & Hd & Hl & Hg & Hres). simpl in *.
        exists (EvRelease x (Some e) :: evs). simpl.
        rewrite Hc, <- app_assoc. simpl. repeat split; auto.
        -- rewrite Hd at 1. rewrite <- app_assoc. reflexivity.
        -- destruct r as [es|e'].
           ++ destruct Hres as [H1 H2]. split; auto.
              rewrite H2, <- app_assoc. reflexivity.
           ++ destruct Hres as [H1 (evs0 & l & w' & H2 & H3)]. split; auto.
              exists (EvRelease x (Some e) :: evs0), l, w'. rewrite H2. auto.
      * inversion Hrun; subst. exists [EvRelease x (Some e)]. simpl.
        repeat split; auto.
        exists [], x, (world m). rewrite R. auto.
    + apply IH in Hrun; [|reflexivity].
      destruct Hrun as (evs & Hc & Hr & Hd & Hl & Hg & Hres). simpl in *.
      exists (EvRelease x None :: evs). simpl.
      rewrite Hc, <- app_assoc. simpl. repeat split; auto.
      * rewrite Hd at 1. rewrite <- app_assoc. reflexivity.
      * destruct r as [es|e'].
        -- exact Hres.
        -- destruct Hres as [H1 (evs0 & l & w' & H2 & H3)]. split; auto.
           exists (EvRelease x None :: evs0), l, w'. rewrite H2. auto.
Qed.

Lemma _release_inv (m m' : machine W) (r : outcome unit) :
  _release m = (m', r) ->
  exists evs,
    calls m' = calls m ++ evs /\
    forallb is_release evs = true /\
    _held_locks (self m) = _held_locks (self m') ++ rev (map event_lock evs) /\
    _locks (self m') = _locks (self m) /\
    log m' = log m /\
    pass_end evs r /\
    (is_ReleaseError_outcome r = true \/ r = Return tt ->
     _held_locks (self m') = []).
Proof.
  unfold _release, bind. intros H.
  destruct (release_loop [] m) as [m1 r1] eqn:E.
  eapply release_loop_inv in E; [|reflexivity].
  destruct E as (evs & Hc & Hr & Hd & Hl & Hg & Hres).
  exists evs. destruct r1 as [es|e].
  - destruct Hres as [H1 H2]. simpl in H2. subst es.
    destruct (failures evs) as [|e0 es] eqn:F; inversion H; subst;
      repeat split; auto.
    + constructor. trivial.
    + rewrite <- F. constructor. congruence.
  - destruct Hres as [H1 (evs0 & l & w & H2 & H3)]. inversion H; subst.
    repeat split; auto.
    + econstructor; eauto.
    + intros [K|K]; [|discriminate]. destruct e; simpl in *; discriminate.
Qed.

(* ===================================================================== *)
(** * Guard entry: [__enter__] *)
(* ===================================================================== *)

(** What the loop of [__enter__] does, whatever the locks do: either every
    [acquire()] returned and the locks are held in iteration order, or the
    first failing [acquire()] stopped the loop and a teardown pass ran on the
    locks held by then. *)
Lemma enter_loop_inv (todo : list Lock) :
  forall m m' r,
    enter_loop todo m = (m', r) ->
    _locks (self m') = _locks (self m) /\
    match r with
    | Return _ =>
        calls m' = calls m ++ map (fun l => EvAcquire l None) todo /\
        _held_locks (self m') = _held_locks (self m) ++ todo /\
        log m' = log m
    | Raise e =>
        exists pre lock post e0 evs rr,
          todo = pre ++ lock :: post /\
          calls m' =
            calls m ++ map (fun l => EvAcquire l None) pre
              ++ EvAcquire lock (Some e0) :: evs /\
          forallb is_release evs = true /\
          _held_locks (self m) ++ pre =
            _held_locks (self m') ++ rev (map event_lock evs) /\
          pass_end evs rr /\
          match rr with
          | Return _ =>
              e = e0 /\ _held_locks (self m') = [] /\
              log m' = log m ++ [LogError "Error acquiring lock %r" lock]
          | Raise er =>
              if is_ReleaseError er
              then e = e0 /\ _held_locks (self m') = [] /\
                   log m' = log m ++ [LogError "Error acquiring lock %r" lock;
                                      LogException "Error releasing locks" er]
              else e = er /\
                   log m' = log m ++ [LogError "Error acquiring lock %r" lock]
          end
    end.
Proof.
  induction todo as [|lock rest IH]; intros m m' r H; simpl in H.
  - inversion H; subst. simpl. rewrite !app_nil_r. auto.
  - unfold bind at 1, try_except at 1, call_acquire in H. simpl in H.
    destruct (acquire lock (world m)) as [w [e0|]] eqn:A.
    + unfold bind at 1, emit in H. simpl in H.
      unfold bind, try_except in H.
      match type of H with context [_release ?x] =>
        destruct (_release x) as [m3 rr] eqn:R end.
      apply _release_inv in R.
      destruct R as (evs & Hc & Hr & Hd & Hl & Hg & Hp & He). simpl in *.
      assert (Hrr : (rr = Return tt \/ exists er, rr = Raise er)).
      { destruct rr as [[]|er]; eauto. }
      destruct Hrr as [-> | [er ->]].
      * inversion H; subst. split; [assumption|].
        exists [], lock, rest, e0, evs, (Return tt). simpl.
        rewrite app_nil_r.
        repeat split; auto. rewrite Hc, <- app_assoc. reflexivity.
      * destruct (is_ReleaseError er) eqn:Er.
        -- unfold emit, raise in H. simpl in H. inversion H; subst. simpl.
           split; [assumption|].
           exists [], lock, rest, e0, evs, (Raise er). simpl.
           rewrite app_nil_r. rewrite Er.
           repeat split; auto.
           ++ rewrite Hc, <- app_assoc. reflexivity.
           ++ rewrite Hg, <- app_assoc. reflexivity.
        -- inversion H; subst. split; [assumption|].
           exists [], lock, rest, e0, evs, (Raise er). simpl.
           rewrite app_nil_r. rewrite Er.
           repeat split; auto. rewrite Hc, <- app_assoc. reflexivity.
    + unfold bind at 1, held_append in H. simpl in H.
      apply IH in H. destruct H as [Hl H]. simpl in *. split; [assumption|].
      destruct r as [u|e].
      * destruct H as (Hc & Hh & Hg). rewrite Hc, Hh, <- !app_assoc. auto.
      * destruct H as (pre & l & post & e0 & evs & rr & Ht & Hc & Hr & Hh & Hp & Hres).
        exists (lock :: pre), l, post, e0, evs, rr. subst rest. simpl.
        rewrite Hc, <- !app_assoc. rewrite <- app_assoc in Hh. simpl in *.
        repeat split; auto.
Qed.

Lemma new_calls_app (m m' : machine W) (evs : list event) :
  calls m' = calls m ++ evs -> new_calls m m' = evs.
Proof.
  intros H. unfold new_calls. rewrite H, skipn_app, skipn_all, Nat.sub_diag.
  reflexivity.
Qed.

Lemma new_log_app (m m' : machine W) (rs : list record) :
  log m' = log m ++ rs -> new_log m m' = rs.
Proof.
  intros H. unfold new_log. rewrite H, skipn_app, skipn_all, Nat.sub_diag.
  reflexivity.
Qed.

Lemma filter_release_all (evs : list event) :
  forallb is_release evs = true ->
  filter is_release evs = evs /\ filter is_acquire evs = [].
Proof.
  induction evs as [|[l r|l r] evs IH]; simpl; intros H; auto; try discriminate.
  destruct (IH H) as [-> ->]. auto.
Qed.

Lemma filter_acquire_ok (ls : list Lock) :
  filter is_acquire (map (fun l => EvAcquire l None) ls)
    = map (fun l => EvAcquire l None) ls /\
  filter is_release (map (fun l => EvAcquire l None) ls) = [] /\
  map event_lock (map (fun l => EvAcquire l None) ls) = ls /\
  failures (map (fun l => EvAcquire l None) ls) = [].
Proof.
  induction ls as [|x ls (IH1 & IH2 & IH3 & IH4)]; simpl; auto.
  rewrite IH1, IH3. auto.
Qed.

Lemma failures_app (a b : list event) :
  failures (a ++ b) = failures a ++ failures b.
Proof.
  induction a as [|ev a IH]; simpl; trivial.
  destruct (event_result ev); simpl; congruence.
Qed.

Lemma nth_error_failed_acquire (pre : list Lock) (lock : Lock) (e0 : exn) :
  forall i l e,
    nth_error (map (fun l => EvAcquire l None) pre ++ [EvAcquire lock (Some e0)])
      i = Some (EvAcquire l (Some e)) ->
    i = List.length pre /\ l = lock /\ e = e0.
Proof.
  induction pre as [|x pre IH]; intros [|i] l e H; simpl in *.
  - inversion H. auto.
  - destruct i; discriminate.
  - discriminate.
  - apply IH in H. destruct H as (-> & -> & ->). auto.
Qed.

Lemma nth_error_ok_acquire (ls : list Lock) (i : nat) (l : Lock) (e : exn) :
  nth_error (map (fun l => EvAcquire l None) ls) i
    <> Some (EvAcquire l (Some e)).
Proof.
  revert i; induction ls as [|x ls IH]; intros [|i]; simpl; try discriminate.
  apply IH.
Qed.

Lemma pass_end_Exception (evs : list event) (rr : outcome unit) :
  release_raises_Exception ->
  pass_end evs rr ->
  (failures evs = [] /\ rr = Return tt) \/
  (failures evs <> [] /\ rr = Raise (ReleaseError (failures evs))).
Proof.
  intros Hexc [F | F | e evs0 l w He Hev Hrel]; auto.
  apply Hexc in Hrel. congruence.
Qed.

(* ===================================================================== *)
(** * Guard exit: [__exit__] *)
(* ===================================================================== *)

(** What [__exit__] does, whatever the releases do: one teardown pass, then
    the choice between raising the [ReleaseError] of the pass (no error in
    the block) and logging it (error in the block). *)
Lemma exit_inv (exc : option exn) (m m' : machine W) (r : outcome (option bool)) :
  __exit__ exc m = (m', r) ->
  exists evs rr,
    calls m' = calls m ++ evs /\
    forallb is_release evs = true /\
    _held_locks (self m) = _held_locks (self m') ++ rev (map event_lock evs) /\
    _locks (self m') = _locks (self m) /\
    pass_end evs rr /\
    match rr with
    | Return _ =>
        r = Return None /\ _held_locks (self m') = [] /\ log m' = log m
    | Raise er =>
        if is_ReleaseError er
        then _held_locks (self m') = [] /\
             match exc with
             | None => r = Raise er /\ log m' = log m
             | Some _ =>
                 r = Return (Some false) /\
                 log m' = log m ++ [LogException "Error releasing locks" er]
             end
        else r = Raise er /\ log m' = log m
    end.
Proof.
  unfold __exit__, try_except, bind. intros H.
  destruct (_release m) as [m1 rr] eqn:R.
  apply _release_inv in R.
  destruct R as (evs & Hc & Hr & Hd & Hl & Hg & Hp & He).
  exists evs, rr. destruct rr as [[]|er].
  - inversion H; subst. repeat split; auto.
  - destruct (is_ReleaseError er) eqn:Er.
    + assert (Hm1 : _held_locks (self m1) = []).
      { apply He. left. exact Er. }
      destruct exc as [eb|]; unfold emit, ret, raise in H; simpl in H;
        inversion H; subst; simpl in *; rewrite ?Er; repeat split; auto.
      rewrite Hg. reflexivity.
    + inversion H; subst. repeat split; auto.
Qed.

(** With [release()] errors inside [Exception], a teardown at exit releases
    every held lock, last acquired first, and leaves none held. *)
Lemma exit_Exception (exc : option exn) (m m' : machine W)
  (r : outcome (option bool)) :
  release_raises_Exception ->
  __exit__ exc m = (m', r) ->
  forallb is_release (new_calls m m') = true /\
  released (new_calls m m') = rev (_held_locks (self m)) /\
  _held_locks (self m') = [] /\
  match failures (new_calls m m') with
  | [] => r = Return None /\ new_log m m' = []
  | _ :: _ =>
      match exc with
      | None =>
          r = Raise (ReleaseError (failures (new_calls m m'))) /\
          new_log m m' = []
      | Some _ =>
          r = Return (Some false) /\
          new_log m m' =
            [LogException "Error releasing locks"
               (ReleaseError (failures (new_calls m m')))]
      end
  end.
Proof.
  intros Hexc H. apply exit_inv in H.
  destruct H as (evs & rr & Hc & Hr & Hd & Hl & Hp & Hres).
  apply new_calls_app in Hc. rewrite Hc.
  destruct (filter_release_all _ Hr) as [Fr _].
  assert (Hempty : _held_locks (self m') = []).
  { destruct (pass_end_Exception Hexc Hp) as [[Hf ->] | [Hf ->]]; simpl in Hres.
    - destruct Hres as (_ & K & _). exact K.
    - destruct Hres as [K _]. exact K. }
  rewrite Hempty in Hd. simpl in Hd.
  split; [exact Hr|]. split.
  { unfold released. rewrite Fr, Hd, rev_involutive. reflexivity. }
  split; [exact Hempty|].
  destruct (pass_end_Exception Hexc Hp) as [[Hf ->] | [Hf ->]]; simpl in Hres.
  - rewrite Hf. destruct Hres as (-> & _ & Hg). split; trivial.
    apply new_log_app. rewrite app_nil_r. exact Hg.
  - destruct (failures evs) as [|e0 es] eqn:F; [congruence|].
    destruct Hres as [_ Hres]. destruct exc as [eb|].
    + destruct Hres as [-> Hg]. split; trivial. apply new_log_app. exact Hg.
    + destruct Hres as [-> Hg]. split; trivial.
      apply new_log_app. rewrite app_nil_r. exact Hg.
Qed.

(* ===================================================================== *)
(** * Entry followed by exit; teardown invariants; frame *)
(* ===================================================================== *)

Lemma enter_all_acquired (m m1 : machine W) (r1 : outcome unit) :
  __enter__ m = (m1, r1) ->
  failures (filter is_acquire (new_calls m m1)) = [] ->
  r1 = Return tt /\
  acquired (new_calls m m1) = _locks (self m) /\
  released (new_calls m m1) = [] /\
  _held_locks (self m1) = _held_locks (self m) ++ _locks (self m).
Proof.
  unfold __enter__. intros H Hf. apply enter_loop_inv in H.
  destruct H as [Hl Hres]. destruct r1 as [[]|e].
  - destruct Hres as (Hc & Hh & _). apply new_calls_app in Hc.
    destruct (filter_acquire_ok (_locks (self m))) as (A1 & A2 & A3 & _).
    unfold acquired, released. rewrite Hc, A1, A2, A3. auto.
  - destruct Hres as (pre & l0 & post & e0 & evs & rr & _ & Hc & Hr & _).
    apply new_calls_app in Hc. rewrite Hc, filter_app, failures_app in Hf.
    simpl in Hf. apply app_eq_nil in Hf. destruct Hf as [_ Hf]. discriminate.
Qed.

Lemma NoDup_app_disjoint (A : Type) (a b : list A) (x : A) :
  NoDup (a ++ b) -> In x a -> In x b -> False.
Proof.
  induction a as [|y a IH]; simpl; intros Hnd Ha Hb; [contradiction|].
  inversion Hnd as [|? ? Hy Hnd']; subst. destruct Ha as [-> | Ha].
  - apply Hy, in_or_app. right. exact Hb.
  - exact (IH Hnd' Ha Hb).
Qed.

Lemma teardown_inv_intro (held held' : list Lock) (evs : list event) :
  held = held' ++ rev (released evs) -> teardown_inv held held' evs.
Proof.
  intros H. split; [exact H|]. intros Hnd. rewrite H in Hnd. split.
  - apply NoDup_app_remove_l in Hnd. apply NoDup_rev in Hnd.
    rewrite rev_involutive in Hnd. exact Hnd.
  - intros l Hin Hin'.
    apply (NoDup_app_disjoint _ _ l Hnd); trivial.
    apply in_rev in Hin. exact Hin.
Qed.

(** C9: the working list [_locks] built by [__init__] is never changed
    afterwards: entry, exit and the teardown pass leave it as it was,
    however they end, and so does a whole [with] statement. *)
Theorem working_list_is_frame :
  (forall m m' r, __enter__ m = (m', r) -> _locks (self m') = _locks (self m)) /\
  (forall exc m m' r,
     __exit__ exc m = (m', r) -> _locks (self m') = _locks (self m)) /\
  (forall m m' r, _release m = (m', r) -> _locks (self m') = _locks (self m)) /\
  (forall locks body m m' r,
     with_context locks body m = (m', r) ->
     _locks (self m') = sorted (py_set locks)).
Proof.
  repeat split.
  - intros m m' r H. unfold __enter__ in H. apply enter_loop_inv in H.
    destruct H as [Hl _]. exact Hl.
  - intros exc m m' r H. apply exit_inv in H.
    destruct H as (evs & rr & _ & _ & _ & Hl & _). exact Hl.
  - intros m m' r H. apply _release_inv in H.
    destruct H as (evs & _ & _ & _ & Hl & _). exact Hl.
  - intros locks body m m' r H. unfold with_context, bind, __init__ in H.
    match type of H with context [__enter__ ?x] =>
      destruct (__enter__ x) as [m1 r1] eqn:E end.
    unfold __enter__ in E. apply enter_loop_inv in E. destruct E as [El _].
    simpl in El. destruct r1 as [u|e].
    + destruct (body (world m1)) as [w exc].
      match type of H with context [__exit__ ?a ?x] =>
        destruct (__exit__ a x) as [m2 r2] eqn:X end.
      apply exit_inv in X. destruct X as (evs & rr & _ & _ & _ & Hl & _).
      simpl in Hl. inversion H; subst. congruence.
    + inversion H; subst. exact El.
Qed.

(* ===================================================================== *)
(** * Construction: [sorted(set(locks))] *)
(* ===================================================================== *)

Lemma key_le_trans (a b c : Lock) : key_le a b -> key_le b c -> key_le a c.
Proof.
  unfold key_le, spec_lex_le. intros [H1 | H1] [H2 | H2].
  - left. eapply spec_lex_lt_trans; eauto.
  - left. rewrite <- H2. exact H1.
  - left. rewrite H1. exact H2.
  - right. congruence.
Qed.

Lemma lt_true_key_le (x y : Lock) : __lt__ y x = true -> key_le y x.
Proof. intros H. left. apply lt_spec. exact H. Qed.

Lemma lt_false_key_le (x y : Lock) : __lt__ y x = false -> key_le x y.
Proof.
  intros H. unfold key_le, spec_lex_le.
  destruct (spec_lex_lt_total (sort_key x) (sort_key y)) as [K | [K | K]]; auto.
  apply lt_spec in K. congruence.
Qed.

Lemma sorted_insert_perm (x : Lock) (l : list Lock) :
  Permutation (sorted_insert x l) (x :: l).
Proof.
  induction l as [|y t IH]; simpl; [reflexivity|].
  destruct (__lt__ y x); [|reflexivity].
  rewrite IH. apply perm_swap.
Qed.

Lemma sorted_perm (l : list Lock) : Permutation (sorted l) l.
Proof.
  induction l as [|x t IH]; simpl; [constructor|].
  rewrite sorted_insert_perm. constructor. exact IH.
Qed.

Lemma sorted_insert_sorted (x : Lock) (l : list Lock) :
  StronglySorted key_le l -> StronglySorted key_le (sorted_insert x l).
Proof.
  induction 1 as [|y t Ht IH Hy]; simpl.
  - repeat constructor.
  - destruct (__lt__ y x) eqn:E.
    + constructor; [exact IH|].
      apply Forall_forall. intros z Hz.
      apply (Permutation_in _ (sorted_insert_perm x t)) in Hz.
      destruct Hz as [<- | Hz].
      * apply lt_true_key_le. exact E.
      * rewrite Forall_forall in Hy. auto.
    + apply lt_false_key_le in E. constructor.
      * constructor; assumption.
      * constructor; [exact E|].
        apply Forall_forall. intros z Hz. rewrite Forall_forall in Hy.
        eapply key_le_trans; eauto.
Qed.

Lemma sorted_is_sorted (l : list Lock) : StronglySorted key_le (sorted l).
Proof.
  induction l as [|x t IH]; simpl; [constructor|].
  apply sorted_insert_sorted. exact IH.
Qed.

Lemma StronglySorted_app_l (A : Type) (R : A -> A -> Prop) (a b : list A) :
  StronglySorted R (a ++ b) -> StronglySorted R a.
Proof.
  induction a as [|x a IH]; simpl; intros H; [constructor|].
  inversion H as [|? ? Hs Hf]; subst. constructor; [auto|].
  apply Forall_app in Hf. destruct Hf as [Hf _]. exact Hf.
Qed.

Lemma enter_acquired_prefix (m m' : machine W) (r : outcome unit) :
  __enter__ m = (m', r) ->
  exists rest, _locks (self m) = acquired (new_calls m m') ++ rest.
Proof.
  unfold __enter__. intros H. apply enter_loop_inv in H.
  destruct H as [_ Hres]. destruct r as [u|e].
  - destruct Hres as (Hc & _). apply new_calls_app in Hc.
    destruct (filter_acquire_ok (_locks (self m))) as (A1 & _ & A3 & _).
    exists []. unfold acquired. rewrite Hc, A1, A3, app_nil_r. reflexivity.
  - destruct Hres as (pre & l0 & post & e0 & evs & rr & Ht & Hc & Hr & _).
    apply new_calls_app in Hc.
    destruct (filter_release_all _ Hr) as [_ Fa].
    destruct (filter_acquire_ok pre) as (A1 & _ & A3 & _).
    exists post. unfold acquired. rewrite Hc, filter_app. simpl.
    rewrite A1, Fa, map_app, A3, <- app_assoc. exact Ht.
Qed.

Lemma key_inj (x y : Lock) : _key x = _key y -> x = y.
Proof. destruct x, y. unfold _key. simpl. congruence. Qed.

Lemma existsb_eq_In (x : Lock) (l : list Lock) :
  existsb (__eq__ x) l = true <-> In x l.
Proof.
  rewrite existsb_exists. split.
  - intros (y & Hy & E). apply eq_spec in E. congruence.
  - intros H. exists x. split; [exact H | apply eq_spec; reflexivity].
Qed.

Lemma set_add_all_In (l : list Lock) :
  forall acc x, In x (set_add_all acc l) <-> In x acc \/ In x l.
Proof.
  induction l as [|y l IH]; intros acc x; simpl.
  - split; [auto | intros [H | []]; exact H].
  - rewrite IH. destruct (existsb (__eq__ y) acc) eqn:E.
    + apply existsb_eq_In in E. split.
      * intros [H | H]; auto.
      * intros [H | [<- | H]]; auto.
    + rewrite in_app_iff. simpl. split.
      * intros [[H | [H | []]] | H]; auto.
      * intros [H | [H | H]]; auto.
Qed.

Lemma set_add_all_NoDup (l : list Lock) :
  forall acc, NoDup acc -> NoDup (set_add_all acc l).
Proof.
  induction l as [|y l IH]; intros acc H; simpl; [exact H|].
  apply IH. destruct (existsb (__eq__ y) acc) eqn:E; [exact H|].
  apply NoDup_app; trivial.
  - repeat constructor. simpl. intros [].
  - intros a Ha [<- | []]. apply existsb_eq_In in Ha. congruence.
Qed.

Lemma strict_of_sorted (l : list Lock) :
  NoDup l ->
  (forall x y, In x l -> In y l -> sort_key x = sort_key y -> x = y) ->
  StronglySorted key_le l -> StronglySorted key_lt l.
Proof.
  induction l as [|a t IH]; intros Hnd Hinj Hs; [constructor|].
  inversion Hnd as [|? ? Ha Hnd']; subst.
  inversion Hs as [|? ? Hs' Hf]; subst. constructor.
  - apply IH; trivial. intros x y Hx Hy. apply Hinj; right; assumption.
  - rewrite Forall_forall in *. intros z Hz.
    destruct (Hf z Hz) as [K | K]; [exact K|].
    apply Hinj in K; [|left; reflexivity|right; exact Hz]. congruence.
Qed.

Lemma strict_sorted_unique (l1 : list Lock) :
  forall l2,
    StronglySorted key_lt l1 -> StronglySorted key_lt l2 ->
    (forall x, In x l1 <-> In x l2) -> l1 = l2.
Proof.
  induction l1 as [|a t1 IH]; intros [|b t2] H1 H2 Hin; trivial.
  - destruct (proj2 (Hin b)). left. reflexivity.
  - destruct (proj1 (Hin a)). left. reflexivity.
  - inversion H1 as [|? ? Hs1 Hf1]; subst.
    inversion H2 as [|? ? Hs2 Hf2]; subst.
    rewrite Forall_forall in Hf1, Hf2.
    assert (Hirr : forall z, ~ key_lt z z).
    { intros z. apply spec_lex_lt_irrefl. }
    assert (Hab : a = b).
    { destruct (proj1 (Hin a) (or_introl eq_refl)) as [E | Ha]; [congruence|].
      destruct (proj2 (Hin b) (or_introl eq_refl)) as [E | Hb]; [congruence|].
      exfalso. apply (Hirr a). unfold key_lt.
      eapply spec_lex_lt_trans; [apply (Hf1 b Hb) | apply (Hf2 a Ha)]. }
    subst b. f_equal. apply IH; trivial. intros x. split; intros Hx.
    + destruct (proj1 (Hin x) (or_intror Hx)) as [E | K]; trivial.
      subst x. destruct (Hirr a). apply Hf1. exact Hx.
    + destruct (proj2 (Hin x) (or_intror Hx)) as [E | K]; trivial.
      subst x. destruct (Hirr a). apply Hf2. exact Hx.
Qed.

(* ===================================================================== *)
(** * Further properties of the lock contract *)
(* ===================================================================== *)


Lemma lt_false_false_same_key (x y : Lock) :
  __lt__ x y = false -> __lt__ y x = false -> sort_key x = sort_key y.
Proof.
  intros H1 H2.
  destruct (spec_lex_lt_total (sort_key x) (sort_key y)) as [K | [K | K]];
    trivial; apply lt_spec in K; congruence.
Qed.

Lemma same_key_lt_false (x y : Lock) :
  sort_key x = sort_key y -> __lt__ x y = false.
Proof.
  intros E. destruct (__lt__ x y) eqn:L; trivial.
  apply lt_spec in L. change (spec_lex_lt (sort_key x) (sort_key y)) in L.
  rewrite E in L. destruct (spec_lex_lt_irrefl L).
Qed.

(** X2: [__lt__] is a strict weak order: irreflexive, asymmetric and
    transitive, and two locks are unordered both ways exactly when they have
    the same (ns, name).  It does not separate all unequal locks: locks with
    the same (ns, name) and different types or modes are not equal and not
    ordered. *)
Theorem lt_is_strict_weak_order :
  (forall x, __lt__ x x = false) /\
  (forall x y, __lt__ x y = true -> __lt__ y x = false) /\
  (forall x y z, __lt__ x y = true -> __lt__ y z = true -> __lt__ x z = true) /\
  (forall x y,
     __lt__ x y = false /\ __lt__ y x = false <-> sort_key x = sort_key y) /\
  (forall x y,
     sort_key x = sort_key y -> ltype x <> ltype y \/ mode x <> mode y ->
     __eq__ x y = false /\ __lt__ x y = false /\ __lt__ y x = false).
Proof.
  split; [|split; [|split; [|split]]].
  - intros x. apply same_key_lt_false. reflexivity.
  - intros x y H. destruct (__lt__ y x) eqn:E; trivial.
    apply lt_spec in H. apply lt_spec in E.
    destruct (spec_lex_lt_irrefl (spec_lex_lt_trans H E)).
  - intros x y z H1 H2. apply lt_spec in H1. apply lt_spec in H2.
    apply lt_spec. exact (spec_lex_lt_trans H1 H2).
  - intros x y. split.
    + intros [H1 H2]. apply lt_false_false_same_key; assumption.
    + intros E. split; apply same_key_lt_false; congruence.
  - intros x y E D. split; [|split].
    + destruct (__eq__ x y) eqn:Q; trivial. apply eq_spec in Q. subst y.
      destruct D as [D | D]; destruct D; reflexivity.
    + apply same_key_lt_false. exact E.
    + apply same_key_lt_false. congruence.
Qed.

Lemma object_key_of (l : Lock) : object_key (object_of l) = Return (_key l).
Proof. reflexivity. Qed.

Lemma object_key_cases (o : LockObject) :
  (exists n m d,
     ns_prop o = Some n /\ name_prop o = Some m /\ mode_prop o = Some d /\
     object_key o = Return (cls o, n, m, d)) \/
  ((ns_prop o = None \/ name_prop o = None \/ mode_prop o = None) /\
   object_key o = Raise NotImplementedError).
Proof.
  unfold object_key.
  destruct (ns_prop o) as [n|]; [|right; auto].
  destruct (name_prop o) as [m|]; [|right; auto].
  destruct (mode_prop o) as [d|]; [|right; auto].
  left. exists n, m, d. auto.
Qed.

(** X3: on lock objects, ordering reads [ns] and [name] only while equality
    and hashing read [ns], [name] and [mode]: [<] returns exactly when both
    objects have [ns] and [name], [==] exactly when both have all three
    properties, and they raise [NotImplementedError] otherwise; on objects
    of concrete locks they return what [__lt__], [__eq__], [__ne__],
    [__hash__] and [_key] compute. *)
Theorem object_comparisons_read_properties (a b : LockObject) :
  ((exists v, object_lt a b = Return v) <->
   (ns_prop a <> None /\ name_prop a <> None /\
    ns_prop b <> None /\ name_prop b <> None)) /\
  ((exists v, object_eq a b = Return v) <->
   (ns_prop a <> None /\ name_prop a <> None /\ mode_prop a <> None /\
    ns_prop b <> None /\ name_prop b <> None /\ mode_prop b <> None)) /\
  (forall e, object_lt a b = Raise e -> e = NotImplementedError) /\
  (forall e, object_eq a b = Raise e -> e = NotImplementedError) /\
  (forall x y hash,
     object_lt (object_of x) (object_of y) = Return (__lt__ x y) /\
     object_eq (object_of x) (object_of y) = Return (__eq__ x y) /\
     object_ne (object_of x) (object_of y) = Return (__ne__ x y) /\
     object_hash hash (object_of x) = Return (__hash__ hash x) /\
     object_key (object_of x) = Return (_key x)).
Proof.
  split; [|split; [|split; [|split]]].
  - unfold object_lt.
    destruct (ns_prop a), (name_prop a), (ns_prop b), (name_prop b); simpl;
      split;
      try (intros [v H]; discriminate);
      try (intros (H1 & H2 & H3 & H4); congruence);
      try (intros _; repeat split; discriminate);
      try (intros _; eexists; reflexivity).
  - unfold object_eq, object_key.
    destruct (ns_prop a), (name_prop a), (mode_prop a),
      (ns_prop b), (name_prop b), (mode_prop b); simpl;
      split;
      try (intros [v H]; discriminate);
      try (intros (H1 & H2 & H3 & H4 & H5 & H6); congruence);
      try (intros _; repeat split; discriminate);
      try (intros _; eexists; reflexivity).
  - unfold object_lt.
    destruct (ns_prop a), (name_prop a), (ns_prop b), (name_prop b); simpl;
      intros e H; inversion H; reflexivity.
  - unfold object_eq, object_key.
    destruct (ns_prop a), (name_prop a), (mode_prop a),
      (ns_prop b), (name_prop b), (mode_prop b); simpl;
      intros e H; inversion H; reflexivity.
  - intros x y hash. repeat split; reflexivity.
Qed.

Lemma hash_items_of (ls : list Lock) :
  hash_items (map object_of ls) = Return ls.
Proof.
  induction ls as [|l ls IH]; simpl; trivial.
  rewrite IH. simpl. destruct l. reflexivity.
Qed.

Lemma hash_items_incomplete (objs : list LockObject) (o : LockObject) :
  In o objs ->
  ns_prop o = None \/ name_prop o = None \/ mode_prop o = None ->
  hash_items objs = Raise NotImplementedError.
Proof.
  induction objs as [|o' rest IH]; simpl; intros Hin Hbad; [contradiction|].
  destruct (object_key_cases o')
    as [(n & m & d & E1 & E2 & E3 & ->) | [_ ->]]; [|reflexivity].
  simpl. destruct Hin as [-> | Hin].
  - destruct Hbad as [H | [H | H]]; congruence.
  - rewrite (IH Hin Hbad). reflexivity.
Qed.

Lemma hash_items_complete (objs : list LockObject) :
  (forall o, In o objs ->
     ns_prop o <> None /\ name_prop o <> None /\ mode_prop o <> None) ->
  exists ls, objs = map object_of ls /\ hash_items objs = Return ls.
Proof.
  induction objs as [|o rest IH]; intros H.
  - exists []. auto.
  - destruct IH as (ls & Hls & Hh).
    { intros o' Ho'. apply H. right. exact Ho'. }
    destruct (H o (or_introl eq_refl)) as (H1 & H2 & H3).
    destruct o as [t [n|] [m|] [d|]]; simpl in *; try congruence.
    exists (mkLock t n m d :: ls). rewrite Hls. split; [reflexivity|].
    rewrite hash_items_of. reflexivity.
Qed.

(** X4: construction from lock objects returns exactly when every object
    has [ns], [name] and [mode], and then it is the construction from their
    locks; if one object lacks a property, construction raises
    [NotImplementedError] and sets nothing on the guard. *)
Theorem construction_reads_every_key (objs : list LockObject) (m : machine W) :
  ((forall o, In o objs ->
      ns_prop o <> None /\ name_prop o <> None /\ mode_prop o <> None) ->
   exists ls, objs = map object_of ls /\ object_init objs m = __init__ ls m) /\
  (forall o, In o objs ->
     ns_prop o = None \/ name_prop o = None \/ mode_prop o = None ->
     object_init objs m = (m, Raise NotImplementedError)).
Proof.
  split.
  - intros H. destruct (hash_items_complete objs H) as (ls & Hls & Hh).
    exists ls. split; [exact Hls|]. unfold object_init. rewrite Hh.
    reflexivity.
  - intros o Hin Hbad. unfold object_init.
    rewrite (hash_items_incomplete objs o Hin Hbad). reflexivity.
Qed.

(* ===================================================================== *)
(** * Further properties of the guard *)
(* ===================================================================== *)

(** The recorded calls are the calls made on the locks, and the errors the
    loop of [_release] collects are inside [Exception]. *)
Lemma release_loop_sound (held : list Lock) :
  forall errors m m' r,
    _held_locks (self m) = held ->
    release_loop errors m = (m', r) ->
    exists evs,
      calls m' = calls m ++ evs /\
      Forall event_sound evs /\
      match r with
      | Return es =>
          exists new, es = errors ++ new /\
                      Forall (fun e => is_Exception e = true) new
      | Raise _ => True
      end.
Proof.
  induction held as [|x h IH] using rev_ind; intros errors m m' r Hh Hrun;
    rewrite release_loop_step, Hh in Hrun.
  - rewrite pop_nil in Hrun. inversion Hrun; subst. exists [].
    rewrite app_nil_r. repeat split; auto.
    exists []. rewrite app_nil_r. auto.
  - rewrite pop_snoc in Hrun. unfold call_release in Hrun. simpl in Hrun.
    destruct (release x (world m)) as [w [e|]] eqn:R.
    + destruct (is_Exception e) eqn:Ee.
      * apply IH in Hrun; [|reflexivity].
        destruct Hrun as (evs & Hc & Hs & Hres). simpl in Hc.
        exists (EvRelease x (Some e) :: evs).
        rewrite Hc, <- app_assoc. split; [reflexivity|]. split.
        -- constructor; [|exact Hs]. exists (world m). rewrite R. reflexivity.
        -- destruct r as [es|e']; trivial.
           destruct Hres as (new & -> & Hn). exists (e :: new).
           rewrite <- app_assoc. split; [reflexivity|].
           constructor; assumption.
      * inversion Hrun; subst. exists [EvRelease x (Some e)]. simpl.
        repeat split; auto. constructor; [|constructor].
        exists (world m). rewrite R. reflexivity.
    + apply IH in Hrun; [|reflexivity].
      destruct Hrun as (evs & Hc & Hs & Hres). simpl in Hc.
      exists (EvRelease x None :: evs).
      rewrite Hc, <- app_assoc. split; [reflexivity|]. split; [|exact Hres].
      constructor; [|exact Hs]. exists (world m). rewrite R. reflexivity.
Qed.

Lemma _release_sound (m m' : machine W) (r : outcome unit) :
  _release m = (m', r) ->
  Forall event_sound (new_calls m m') /\
  (forall errs, r = Raise (ReleaseError errs) ->
     Forall (fun e => is_Exception e = true) errs).
Proof.
  unfold _release, bind. intros H.
  destruct (release_loop [] m) as [m1 r1] eqn:E.
  pose proof E as E'.
  eapply release_loop_sound in E; [|reflexivity].
  eapply release_loop_inv in E'; [|reflexivity].
  destruct E as (evs & Hc & Hs & Hres).
  destruct E' as (evs' & _ & _ & _ & _ & _ & Hres').
  destruct r1 as [es|e].
  - destruct Hres as (new & Hes & Hn). simpl in Hes. subst es.
    destruct new as [|e0 new]; inversion H; subst.
    + rewrite (@new_calls_app _ _ _ Hc). split; [exact Hs|]. discriminate.
    + rewrite (@new_calls_app _ _ _ Hc). split; [exact Hs|].
      intros errs K. inversion K; subst. exact Hn.
  - inversion H; subst. rewrite (@new_calls_app _ _ _ Hc). split; [exact Hs|].
    intros errs K. inversion K; subst. destruct Hres' as [Hne _].
    discriminate.
Qed.

Lemma enter_loop_sound (todo : list Lock) :
  forall m m' r,
    enter_loop todo m = (m', r) ->
    exists evs, calls m' = calls m ++ evs /\ Forall event_sound evs.
Proof.
  induction todo as [|lock rest IH]; intros m m' r H; simpl in H.
  - inversion H; subst. exists []. rewrite app_nil_r. auto.
  - unfold bind at 1, try_except at 1, call_acquire in H. simpl in H.
    destruct (acquire lock (world m)) as [w [e0|]] eqn:A.
    + unfold bind at 1, emit in H. simpl in H.
      unfold bind, try_except in H.
      match type of H with context [_release ?x] =>
        destruct (_release x) as [m3 rr] eqn:R end.
      pose proof R as R'. apply _release_inv in R'.
      destruct R' as (evs & Hc & _).
      apply _release_sound in R. destruct R as [Hs _].
      rewrite (@new_calls_app _ _ _ Hc) in Hs. simpl in Hc.
      assert (Hm' : calls m' = calls m3).
      { destruct rr as [[]|er]; [inversion H; reflexivity|].
        destruct (is_ReleaseError er); inversion H; reflexivity. }
      exists (EvAcquire lock (Some e0) :: evs).
      rewrite Hm', Hc, <- app_assoc. split; [reflexivity|].
      constructor; [|exact Hs]. exists (world m). rewrite A. reflexivity.
    + unfold bind at 1, held_append in H. simpl in H.
      apply IH in H. destruct H as (evs & Hc & Hs). simpl in Hc.
      exists (EvAcquire lock None :: evs).
      rewrite Hc, <- app_assoc. split; [reflexivity|].
      constructor; [|exact Hs]. exists (world m). rewrite A. reflexivity.
Qed.

Lemma release_loop_Exceptions (held : list Lock) :
  forall errors m m' es,
    _held_locks (self m) = held ->
    release_loop errors m = (m', Return es) ->
    exists new, es = errors ++ new /\
                Forall (fun e => is_Exception e = true) new.
Proof.
  induction held as [|x h IH] using rev_ind; intros errors m m' es Hh Hrun;
    rewrite release_loop_step, Hh in Hrun.
  - rewrite pop_nil in Hrun. inversion Hrun; subst. exists [].
    rewrite app_nil_r. auto.
  - rewrite pop_snoc in Hrun. unfold call_release in Hrun. simpl in Hrun.
    destruct (release x (world m)) as [w [e|]] eqn:R.
    + destruct (is_Exception e) eqn:Ee; [|discriminate].
      apply IH in Hrun; [|reflexivity].
      destruct Hrun as (new & -> & Hn). exists (e :: new).
      rewrite <- app_assoc. split; [reflexivity|]. constructor; assumption.
    + apply IH in Hrun; [|reflexivity]. exact Hrun.
Qed.

Lemma _release_Exceptions (m m' : machine W) (errs : list exn) :
  _release m = (m', Raise (ReleaseError errs)) ->
  Forall (fun e => is_Exception e = true) errs.
Proof.
  unfold _release, bind. intros H.
  destruct (release_loop [] m) as [m1 [es|e]] eqn:E.
  - eapply release_loop_Exceptions in E; [|reflexivity].
    destruct E as (new & -> & Hn). simpl in H.
    destruct new; inversion H; subst. exact Hn.
  - eapply release_loop_inv in E; [|reflexivity].
    destruct E as (evs & _ & _ & _ & _ & _ & Hne & _).
    inversion H; subst. discriminate.
Qed.

Lemma failures_length (evs : list event) :
  List.length (failures evs) <= List.length evs.
Proof.
  induction evs as [|ev evs IH]; simpl; [lia|].
  destruct (event_result ev); simpl; lia.
Qed.

(** X5: how a teardown pass can end.  It returns only when no [release()]
    call failed; the [ReleaseError] it raises carries exactly the errors of
    the failed calls, in call order, at least one and at most one per held
    lock, all inside [Exception]; in both cases every held lock got its
    [release()] call, last acquired first, and none is held.  Any other
    error it raises is the error of its last [release()] call, outside
    [Exception]. *)
Theorem teardown_outcomes (m m' : machine W) (r : outcome unit) :
  _release m = (m', r) ->
  match r with
  | Return _ =>
      failures (new_calls m m') = [] /\
      _held_locks (self m') = [] /\
      released (new_calls m m') = rev (_held_locks (self m))
  | Raise e =>
      if is_ReleaseError e
      then e = ReleaseError (failures (new_calls m m')) /\
           failures (new_calls m m') <> [] /\
           List.length (failures (new_calls m m'))
             <= List.length (_held_locks (self m)) /\
           Forall (fun x => is_Exception x = true)
             (failures (new_calls m m')) /\
           _held_locks (self m') = [] /\
           released (new_calls m m') = rev (_held_locks (self m))
      else is_Exception e = false /\
           exists evs0 l,
             new_calls m m' = evs0 ++ [EvRelease l (Some e)]
  end.
Proof.
  intros H.
  assert (Hexc : forall errs, r = Raise (ReleaseError errs) ->
                   Forall (fun e => is_Exception e = true) errs).
  { intros errs ->. exact (_release_Exceptions _ H). }
  apply _release_inv in H.
  destruct H as (evs & Hc & Hr & Hd & _ & _ & Hp & He).
  apply new_calls_app in Hc. rewrite Hc.
  destruct (filter_release_all _ Hr) as [Fr _].
  assert (Hdone : _held_locks (self m') = [] ->
                  released evs = rev (_held_locks (self m)) /\
                  List.length evs = List.length (_held_locks (self m))).
  { intros K. rewrite K in Hd. simpl in Hd. unfold released.
    rewrite Fr, Hd, rev_involutive. split; [reflexivity|].
    rewrite length_rev, length_map. reflexivity. }
  destruct Hp as [F | F | e evs0 l w Hne Hev Hrel].
  - destruct (Hdone (He (or_intror eq_refl))) as [K1 _].
    repeat split; auto.
  - simpl. destruct (Hdone (He (or_introl eq_refl))) as [K1 K2].
    repeat split; auto.
    all: try (rewrite <- K2; apply failures_length).
    all: try (apply Hexc; reflexivity).
  - destruct (is_ReleaseError e) eqn:Er.
    + destruct e; simpl in *; discriminate.
    + split; [exact Hne|]. exists evs0, l. exact Hev.
Qed.

(** X6: [__exit__] never swallows the error of the block.  Whatever the
    releases do, it raises or returns a false value, so the caller of the
    [with] statement observes an error whenever the block raised one: the
    error of the block, or a release error outside [Exception]. *)
Theorem exit_never_suppresses
  (exc : option exn) (m m' : machine W) (r : outcome (option bool)) :
  __exit__ exc m = (m', r) ->
  (forall v, r = Return v -> truthy v = false) /\
  (forall e, exc = Some e ->
     exists e', exit_observed exc r = Raise e' /\
                (e' = e \/ is_Exception e' = false)).
Proof.
  intros H. apply exit_inv in H.
  destruct H as (evs & rr & _ & _ & _ & _ & Hp & Hres).
  destruct Hp as [F | F | e0 evs0 l w Hne Hev Hrel]; simpl in Hres.
  - destruct Hres as (-> & _). split.
    + intros v K. inversion K. reflexivity.
    + intros e ->. exists e. simpl. auto.
  - destruct Hres as [_ Hres]. destruct exc as [eb|].
    + destruct Hres as [-> _]. split.
      * intros v K. inversion K. reflexivity.
      * intros e K. inversion K; subst. exists e. simpl. auto.
    + destruct Hres as [-> _]. split; [discriminate|]. discriminate.
  - assert (Er : is_ReleaseError e0 = false).
    { destruct e0; simpl in *; trivial; discriminate. }
    rewrite Er in Hres. destruct Hres as [-> _]. split; [discriminate|].
    intros e ->. exists e0. simpl. auto.
Qed.

(** X7: when the first [acquire()] of an entry fails there is nothing to
    roll back: [__enter__] makes that one call, logs the failure, makes no
    [release()] call and raises the error of the call, whatever the
    [release()] of the locks would do. *)
Theorem first_acquire_failure_needs_no_rollback
  (m m' : machine W) (r : outcome unit) (lock : Lock) (e : exn) :
  _held_locks (self m) = [] ->
  __enter__ m = (m', r) ->
  hd_error (new_calls m m') = Some (EvAcquire lock (Some e)) ->
  r = Raise e /\
  new_calls m m' = [EvAcquire lock (Some e)] /\
  hd_error (_locks (self m)) = Some lock /\
  _held_locks (self m') = [] /\
  new_log m m' = [LogError "Error acquiring lock %r" lock].
Proof.
  intros Hheld H Hhd. unfold __enter__ in H. apply enter_loop_inv in H.
  destruct H as [_ Hres]. destruct r as [u|e1].
  - destruct Hres as (Hc & _). apply new_calls_app in Hc. rewrite Hc in Hhd.
    destruct (_locks (self m)); simpl in Hhd; discriminate.
  - destruct Hres as (pre & l0 & post & e0 & evs & rr & Ht & Hc & Hr & Hh & Hp & Hres).
    apply new_calls_app in Hc. rewrite Hc in Hhd. rewrite Hc.
    destruct pre as [|p pre]; simpl in Hhd; [|discriminate].
    inversion Hhd; subst l0 e0. rewrite Hheld in Hh. simpl in Hh.
    symmetry in Hh. apply app_eq_nil in Hh. destruct Hh as [Hh1 Hh2].
    assert (Hevs : evs = []).
    { destruct evs as [|ev evs]; trivial. simpl in Hh2.
      apply app_eq_nil in Hh2. destruct Hh2 as [_ K]. discriminate. }
    subst evs. simpl.
    assert (Hrr : rr = Return tt).
    { destruct Hp as [F | F | e0 evs0 l w Hne Hev Hrel]; trivial.
      - destruct F. reflexivity.
      - destruct evs0; discriminate. }
    subst rr. destruct Hres as (-> & _ & Hlog).
    apply new_log_app in Hlog. rewrite Ht. simpl. auto.
Qed.

Lemma exit_noop (exc : option exn) (m : machine W) :
  _held_locks (self m) = [] ->
  _release m = (m, Return tt) /\ __exit__ exc m = (m, Return None).
Proof.
  intros H.
  assert (R : _release m = (m, Return tt)).
  { unfold _release, bind. rewrite release_loop_step, H. reflexivity. }
  split; [exact R|]. unfold __exit__, try_except, bind. rewrite R.
  reflexivity.
Qed.

Lemma context_eq (c c' : context) :
  _locks c = _locks c' -> _held_locks c = _held_locks c' -> c = c'.
Proof. destruct c, c'. simpl. congruence. Qed.

Lemma filter_ok_acquire_facts (ls : list Lock) (evs : list event) :
  forallb is_release evs = true ->
  filter is_ok_acquire (map (fun l => EvAcquire l None) ls)
    = map (fun l => EvAcquire l None) ls /\
  filter is_ok_acquire evs = [].
Proof.
  intros H. split.
  - induction ls as [|x ls IH]; simpl; [reflexivity|]. rewrite IH. reflexivity.
  - induction evs as [|[l r|l r] evs IH]; simpl in *; trivial;
      [discriminate | apply IH; exact H].
Qed.

(** A [with] statement is a failed entry, or an entry, the block and an
    exit. *)
Lemma with_context_cases
  (locks : list Lock) (body : W -> W * option exn) (m m' : machine W)
  (r : outcome unit) :
  with_context locks body m = (m', r) ->
  (exists e,
     __enter__ (fst (__init__ locks m)) = (m', Raise e) /\ r = Raise e) \/
  (exists m1 m2 exc r3,
     __enter__ (fst (__init__ locks m)) = (m1, Return tt) /\
     self m2 = self m1 /\ calls m2 = calls m1 /\ log m2 = log m1 /\
     body (world m1) = (world m2, exc) /\
     __exit__ exc m2 = (m', r3) /\ r = exit_observed exc r3).
Proof.
  unfold with_context, bind. simpl. intros H.
  match type of H with context [__enter__ ?x] =>
    destruct (__enter__ x) as [m1 [[]|e]] eqn:E end.
  - right. destruct (body (world m1)) as [w exc] eqn:B.
    match type of H with context [__exit__ ?a ?x] =>
      destruct (__exit__ a x) as [m2 r3] eqn:X end.
    inversion H; subst.
    exists m1, (mkMachine (self m1) w (calls m1) (log m1)), exc, r3.
    repeat split; trivial.
  - left. inversion H; subst. exists e. auto.
Qed.

Lemma exit_sound (exc : option exn) (m m' : machine W)
  (r : outcome (option bool)) :
  __exit__ exc m = (m', r) -> Forall event_sound (new_calls m m').
Proof.
  unfold __exit__, try_except, bind. intros H.
  destruct (_release m) as [m1 rr] eqn:R.
  pose proof R as R'. apply _release_sound in R'. destruct R' as [Hs _].
  assert (Hc : calls m' = calls m1).
  { destruct rr as [[]|er]; [inversion H; reflexivity|].
    destruct (is_ReleaseError er); [destruct exc|]; inversion H; reflexivity. }
  unfold new_calls in *. rewrite Hc. exact Hs.
Qed.



(** From here on the iteration order of a [set] is what Python promises of
    it: the items of the set, each once, in an order of its own. *)
Hypothesis set_order_perm : forall l, Permutation (set_order l) l.

Lemma py_set_In (locks : list Lock) (x : Lock) :
  In x (py_set locks) <-> In x locks.
Proof.
  unfold py_set. split; intros H.
  - apply (Permutation_in _ (set_order_perm _)) in H.
    apply set_add_all_In in H. simpl in H. destruct H as [[] | H]. exact H.
  - apply (Permutation_in _ (Permutation_sym (set_order_perm _))).
    apply set_add_all_In. auto.
Qed.

Lemma py_set_NoDup (locks : list Lock) : NoDup (py_set locks).
Proof.
  unfold py_set.
  apply (Permutation_NoDup (Permutation_sym (set_order_perm _))).
  apply set_add_all_NoDup. constructor.
Qed.

Lemma working_list_In (locks : list Lock) (x : Lock) :
  In x (sorted (py_set locks)) <-> In x locks.
Proof.
  split; intros H.
  - apply py_set_In. apply (Permutation_in _ (sorted_perm _)). exact H.
  - apply (Permutation_in _ (Permutation_sym (sorted_perm _))).
    apply py_set_In. exact H.
Qed.

Lemma working_list_NoDup (locks : list Lock) : NoDup (sorted (py_set locks)).
Proof.
  apply (Permutation_NoDup (Permutation_sym (sorted_perm _))).
  apply py_set_NoDup.
Qed.


Lemma In_map_key (l : list Lock) (x : Lock) :
  In (_key x) (map _key l) <-> In x l.
Proof.
  rewrite in_map_iff. split.
  - intros (y & E & Hy). apply key_inj in E. congruence.
  - intros H. exists x. auto.
Qed.


(** C10: two inputs with the same set of distinct lock keys give working
    lists with the same locks; when distinct keys of the input always differ
    in (ns, name), the two working lists are the same sequence, whatever the
    order and the repetitions of the inputs and whatever the iteration order
    of the sets. *)
Theorem working_list_independent_of_input_order
  (locks1 locks2 : list Lock) (m1 m2 : machine W) :
  (forall k, In k (map _key locks1) <-> In k (map _key locks2)) ->
  let ws1 := _locks (self (fst (__init__ locks1 m1))) in
  let ws2 := _locks (self (fst (__init__ locks2 m2))) in
  (forall x, In x ws1 <-> In x ws2) /\
  ((forall x y, In x locks1 -> In y locks1 ->
                _key x <> _key y -> sort_key x <> sort_key y) ->
   ws1 = ws2).
Proof.
  intros Hsame ws1 ws2. subst ws1 ws2. simpl.
  assert (Hin : forall x, In x locks1 <-> In x locks2).
  { intros x. rewrite <- !In_map_key. apply Hsame. }
  split.
  - intros x. rewrite !working_list_In. apply Hin.
  - intros Hdist.
    assert (Hinj : forall l, (forall x, In x l <-> In x locks1) ->
              forall x y, In x l -> In y l -> sort_key x = sort_key y -> x = y).
    { intros l Hl x y Hx Hy E. apply Hl in Hx. apply Hl in Hy.
      destruct (string_dec (ltype x) (ltype y)) as [E1|N];
        [destruct (string_dec (mode x) (mode y)) as [E2|N]|].
      - destruct x, y. unfold sort_key in E. simpl in *. congruence.
      - exfalso. apply (Hdist x y Hx Hy); trivial. unfold _key. congruence.
      - exfalso. apply (Hdist x y Hx Hy); trivial. unfold _key. congruence. }
    apply strict_sorted_unique.
    + apply strict_of_sorted; [apply working_list_NoDup| |apply sorted_is_sorted].
      apply Hinj. intros x. apply working_list_In.
    + apply strict_of_sorted; [apply working_list_NoDup| |apply sorted_is_sorted].
      apply Hinj. intros x. rewrite working_list_In. symmetry. apply Hin.
    + intros x. rewrite !working_list_In. apply Hin.
Qed.

Lemma StronglySorted_pair (A : Type) (R : A -> A -> Prop) (l : list A) :
  StronglySorted R l ->
  forall x y, In x l -> In y l -> x = y \/ R x y \/ R y x.
Proof.
  induction 1 as [|a t Ht IH Ha]; intros x y Hx Hy; [contradiction|].
  rewrite Forall_forall in Ha.
  destruct Hx as [-> | Hx], Hy as [-> | Hy]; auto.
Qed.

Lemma StronglySorted_split (A : Type) (R : A -> A -> Prop) (l : list A) :
  StronglySorted R l ->
  forall x y, In x l -> In y l -> ~ R y x -> x <> y ->
    exists a b c, l = a ++ x :: b ++ y :: c.
Proof.
  induction 1 as [|h t Ht IH Hh]; intros x y Hx Hy Hn Hd; [contradiction|].
  rewrite Forall_forall in Hh.
  destruct Hx as [-> | Hx].
  - destruct Hy as [-> | Hy]; [congruence|].
    apply in_split in Hy. destruct Hy as (b & c & ->).
    exists [], b, c. reflexivity.
  - destruct Hy as [-> | Hy].
    + destruct Hn. apply Hh. exact Hx.
    + destruct (IH x y Hx Hy Hn Hd) as (a & b & c & ->).
      exists (h :: a), b, c. reflexivity.
Qed.

(** X13: the order of the working list is the order of [__lt__].  For every
    input and every iteration order of the set, a lock that [__lt__] puts
    before another lock of the input comes before it in the working list,
    hence is acquired first: two guards on inputs that share two such locks
    take them in the same order. *)
Theorem working_list_respects_lt (locks : list Lock) (x y : Lock) :
  In x locks -> In y locks -> __lt__ x y = true ->
  exists a b c, sorted (py_set locks) = a ++ x :: b ++ y :: c.
Proof.
  intros Hx Hy Hlt.
  apply (StronglySorted_split (sorted_is_sorted (py_set locks))).
  - apply working_list_In. exact Hx.
  - apply working_list_In. exact Hy.
  - intros K. apply lt_spec in Hlt.
    change (spec_lex_lt (sort_key x) (sort_key y)) in Hlt.
    destruct K as [K | K].
    + exact (spec_lex_lt_irrefl (spec_lex_lt_trans Hlt K)).
    + rewrite K in Hlt. exact (spec_lex_lt_irrefl Hlt).
  - intros ->. apply lt_spec in Hlt. exact (spec_lex_lt_irrefl Hlt).
Qed.

Lemma StronglySorted_impl (A : Type) (R S : A -> A -> Prop) (l : list A) :
  (forall a b, R a b -> S a b) -> StronglySorted R l -> StronglySorted S l.
Proof.
  intros H. induction 1 as [|a t Ht IH Ha]; constructor; trivial.
  rewrite Forall_forall in *. auto.
Qed.

(** X14: the working list is strictly increasing under [__lt__] exactly
    when no two different locks of the input have the same (ns, name); with
    such a pair, two locks that [__lt__] does not order are both in the
    list. *)
Theorem working_list_strict_iff_no_tie (locks : list Lock) :
  StronglySorted (fun a b => __lt__ a b = true) (sorted (py_set locks)) <->
  (forall x y, In x locks -> In y locks ->
               sort_key x = sort_key y -> x = y).
Proof.
  split.
  - intros Hs x y Hx Hy E.
    apply (proj2 (working_list_In locks _)) in Hx.
    apply (proj2 (working_list_In locks _)) in Hy.
    destruct (StronglySorted_pair Hs x y Hx Hy) as [K | [K | K]]; trivial.
    + rewrite (@same_key_lt_false x y E) in K. discriminate.
    + rewrite (@same_key_lt_false y x (eq_sym E)) in K. discriminate.
  - intros Hinj.
    apply StronglySorted_impl with (R := key_lt).
    { intros a b K. apply lt_spec. exact K. }
    apply strict_of_sorted.
    + apply working_list_NoDup.
    + intros x y Hx Hy E. apply (proj1 (working_list_In _ _)) in Hx.
      apply (proj1 (working_list_In _ _)) in Hy. apply Hinj; assumption.
    + apply sorted_is_sorted.
Qed.

(* ===================================================================== *)
(** * The teardown pass, by the release errors it met *)
(* ===================================================================== *)

(** One run of the loop of [_release]: it ends normally when every error it
    met was inside [Exception], and on the first error outside [Exception],
    which is the error of its last call. *)
Lemma release_loop_strict (held : list Lock) :
  forall errors m m' r,
    _held_locks (self m) = held ->
    release_loop errors m = (m', r) ->
    exists evs,
      calls m' = calls m ++ evs /\
      forallb is_release evs = true /\
      held = _held_locks (self m') ++ rev (map event_lock evs) /\
      _locks (self m') = _locks (self m) /\
      log m' = log m /\
      match r with
      | Return es =>
          _held_locks (self m') = [] /\ es = errors ++ failures evs /\
          Forall (fun e => is_Exception e = true) (failures evs)
      | Raise e =>
          is_Exception e = false /\
          exists evs0 l,
            evs = evs0 ++ [EvRelease l (Some e)] /\
            Forall (fun e => is_Exception e = true) (failures evs0)
      end.
Proof.
  induction held as [|x h IH] using rev_ind; intros errors m m' r Hh Hrun;
    rewrite release_loop_step, Hh in Hrun.
  - rewrite pop_nil in Hrun. inversion Hrun; subst. exists []. simpl.
    rewrite !app_nil_r. repeat split; auto.
  - rewrite pop_snoc in Hrun. unfold call_release in Hrun. simpl in Hrun.
    destruct (release x (world m)) as [w [e|]] eqn:R.
    + destruct (is_Exception e) eqn:Ee.
      * apply IH in Hrun; [|reflexivity].
        destruct Hrun as (evs & Hc & Hr & Hd & Hl & Hg & Hres).
        simpl in Hc, Hl, Hg.
        exists (EvRelease x (Some e) :: evs). simpl.
        rewrite Hc, <- app_assoc. simpl. repeat split; auto.
        -- rewrite Hd at 1. rewrite <- app_assoc. reflexivity.
        -- destruct r as [es|e'].
           ++ destruct Hres as (H1 & H2 & H3). repeat split; auto.
              rewrite H2, <- app_assoc. reflexivity.
           ++ destruct Hres as [H1 (evs0 & l & H2 & H3)]. split; auto.
              exists (EvRelease x (Some e) :: evs0), l. rewrite H2. simpl.
              split; [reflexivity|]. constructor; assumption.
      * inversion Hrun; subst. exists [EvRelease x (Some e)]. simpl.
        repeat split; auto. exists [], x. simpl. auto.
    + apply IH in Hrun; [|reflexivity].
      destruct Hrun as (evs & Hc & Hr & Hd & Hl & Hg & Hres).
      simpl in Hc, Hl, Hg.
      exists (EvRelease x None :: evs). simpl.
      rewrite Hc, <- app_assoc. simpl. repeat split; auto.
      * rewrite Hd at 1. rewrite <- app_assoc. reflexivity.
      * destruct r as [es|e'].
        -- exact Hres.
        -- destruct Hres as [H1 (evs0 & l & H2 & H3)]. split; auto.
           exists (EvRelease x None :: evs0), l. rewrite H2. auto.
Qed.

(** A teardown pass either met only errors inside [Exception], and then it
    drained the held list and returned or raised its [ReleaseError], or it
    ended on the first error outside [Exception], raised by its last call. *)
Lemma _release_strict (m m' : machine W) (r : outcome unit) :
  _release m = (m', r) ->
  exists evs,
    calls m' = calls m ++ evs /\
    forallb is_release evs = true /\
    _held_locks (self m) = _held_locks (self m') ++ rev (map event_lock evs) /\
    _locks (self m') = _locks (self m) /\
    log m' = log m /\
    ((Forall (fun e => is_Exception e = true) (failures evs) /\
      _held_locks (self m') = [] /\
      r = match failures evs with
          | [] => Return tt
          | _ :: _ => Raise (ReleaseError (failures evs))
          end) \/
     (exists e evs0 l,
        is_Exception e = false /\
        evs = evs0 ++ [EvRelease l (Some e)] /\
        Forall (fun e => is_Exception e = true) (failures evs0) /\
        r = Raise e)).
Proof.
  unfold _release, bind. intros H.
  destruct (release_loop [] m) as [m1 r1] eqn:E.
  eapply release_loop_strict in E; [|reflexivity].
  destruct E as (evs & Hc & Hr & Hd & Hl & Hg & Hres).
  exists evs. destruct r1 as [es|e].
  - destruct Hres as (H1 & H2 & H3). simpl in H2. subst es.
    destruct (failures evs) as [|e0 es] eqn:F; inversion H; subst;
      repeat split; auto; left; repeat split; auto.
  - destruct Hres as [H1 (evs0 & l & H2 & H3)]. inversion H; subst.
    repeat split; auto. right. exists e, evs0, l. auto.
Qed.

Lemma In_failures (evs : list event) (ev : event) (e : exn) :
  In ev evs -> event_result ev = Some e -> In e (failures evs).
Proof.
  induction evs as [|x evs IH]; simpl; intros Hin Hr; [contradiction|].
  destruct Hin as [-> | Hin].
  - rewrite Hr. left. reflexivity.
  - destruct (event_result x); [right|]; auto.
Qed.

Lemma Exception_errors_no_other (evs : list event) (l : Lock) (e : exn) :
  Forall (fun x => is_Exception x = true) (failures evs) ->
  In (EvRelease l (Some e)) evs -> is_Exception e = false -> False.
Proof.
  intros Hall Hin Hne. rewrite Forall_forall in Hall.
  rewrite (Hall e) in Hne; [discriminate|].
  apply In_failures with (ev := EvRelease l (Some e)); trivial.
Qed.

Lemma aborting_call_is_last (evs0 : list event) (l0 l : Lock) (e0 e : exn) :
  Forall (fun x => is_Exception x = true) (failures evs0) ->
  In (EvRelease l (Some e)) (evs0 ++ [EvRelease l0 (Some e0)]) ->
  is_Exception e = false ->
  l = l0 /\ e = e0.
Proof.
  intros Hall Hin Hne. apply in_app_or in Hin. destruct Hin as [Hin | Hin].
  - destruct (@Exception_errors_no_other _ _ _ Hall Hin Hne).
  - destruct Hin as [K | []]. inversion K. auto.
Qed.

Lemma abort_not_Exception_run (evs0 : list event) (l : Lock) (e : exn) :
  is_Exception e = false ->
  ~ Forall (fun x => is_Exception x = true)
      (failures (evs0 ++ [EvRelease l (Some e)])).
Proof.
  intros Hne Hall. rewrite Forall_forall in Hall.
  rewrite (Hall e) in Hne; [discriminate|].
  rewrite failures_app. apply in_or_app. right. left. reflexivity.
Qed.

(** [__exit__], by the release errors its teardown pass met. *)
Lemma exit_strict (exc : option exn) (m m' : machine W)
  (r : outcome (option bool)) :
  __exit__ exc m = (m', r) ->
  exists evs,
    calls m' = calls m ++ evs /\
    forallb is_release evs = true /\
    _held_locks (self m) = _held_locks (self m') ++ rev (map event_lock evs) /\
    ((Forall (fun e => is_Exception e = true) (failures evs) /\
      _held_locks (self m') = [] /\
      match failures evs with
      | [] => r = Return None /\ log m' = log m
      | _ :: _ =>
          match exc with
          | None => r = Raise (ReleaseError (failures evs)) /\ log m' = log m
          | Some _ =>
              r = Return (Some false) /\
              log m' = log m ++ [LogException "Error releasing locks"
                                   (ReleaseError (failures evs))]
          end
      end) \/
     (exists e evs0 l,
        is_Exception e = false /\
        evs = evs0 ++ [EvRelease l (Some e)] /\
        Forall (fun e => is_Exception e = true) (failures evs0) /\
        r = Raise e /\ log m' = log m)).
Proof.
  unfold __exit__, try_except, bind. intros H.
  destruct (_release m) as [m1 rr] eqn:R.
  apply _release_strict in R.
  destruct R as (evs & Hc & Hr & Hd & Hl & Hg & Hres).
  destruct Hres as [(Hall & Hempty & ->) | (e & evs0 & l & Hne & Hev & Hall & ->)].
  - destruct (failures evs) as [|e0 es] eqn:F.
    + inversion H; subst. exists evs. repeat split; auto.
      left. rewrite F. auto.
    + simpl in H. destruct exc as [eb|]; unfold emit, ret, raise in H;
        simpl in H; inversion H; subst; simpl in *; exists evs;
        repeat split; auto; left; rewrite F; repeat split; auto.
      rewrite Hg. reflexivity.
  - assert (Er : is_ReleaseError e = false).
    { destruct e; simpl in *; trivial; discriminate. }
    rewrite Er in H. inversion H; subst.
    exists (evs0 ++ [EvRelease l (Some e)]).
    repeat split; auto. right. exists e, evs0, l. auto.
Qed.

(** The loop of [__enter__], by the release errors its rollback met. *)
Lemma enter_loop_strict (todo : list Lock) :
  forall m m' r,
    enter_loop todo m = (m', r) ->
    match r with
    | Return _ =>
        calls m' = calls m ++ map (fun l => EvAcquire l None) todo /\
        _held_locks (self m') = _held_locks (self m) ++ todo /\
        log m' = log m
    | Raise e =>
        exists pre lock post e0 evs,
          todo = pre ++ lock :: post /\
          calls m' =
            calls m ++ map (fun l => EvAcquire l None) pre
              ++ EvAcquire lock (Some e0) :: evs /\
          forallb is_release evs = true /\
          _held_locks (self m) ++ pre =
            _held_locks (self m') ++ rev (map event_lock evs) /\
          ((Forall (fun x => is_Exception x = true) (failures evs) /\
            _held_locks (self m') = [] /\
            e = e0 /\
            log m' =
              log m ++
              LogError "Error acquiring lock %r" lock ::
              match failures evs with
              | [] => []
              | _ :: _ =>
                  [LogException "Error releasing locks"
                     (ReleaseError (failures evs))]
              end) \/
           (exists e' evs0 l,
              is_Exception e' = false /\
              evs = evs0 ++ [EvRelease l (Some e')] /\
              Forall (fun x => is_Exception x = true) (failures evs0) /\
              e = e' /\
              log m' = log m ++ [LogError "Error acquiring lock %r" lock]))
    end.
Proof.
  induction todo as [|lock rest IH]; intros m m' r H; simpl in H.
  - inversion H; subst. simpl. rewrite !app_nil_r. auto.
  - unfold bind at 1, try_except at 1, call_acquire in H. simpl in H.
    destruct (acquire lock (world m)) as [w [e0|]] eqn:A.
    + unfold bind at 1, emit in H. simpl in H.
      unfold bind, try_except in H.
      match type of H with context [_release ?x] =>
        destruct (_release x) as [m3 rr] eqn:R end.
      apply _release_strict in R.
      destruct R as (evs & Hc & Hr & Hd & Hl & Hg & Hres).
      simpl in Hc, Hd, Hl, Hg.
      destruct Hres as [(Hall & Hempty & ->) | (e & evs0 & l & Hne & Hev & Hall & ->)].
      * destruct (failures evs) as [|x es] eqn:F.
        -- inversion H; subst.
           exists [], lock, rest, e0, evs. simpl. rewrite app_nil_r.
           repeat split; auto.
           ++ rewrite Hc, <- app_assoc. reflexivity.
           ++ left. rewrite F. repeat split; auto.
        -- simpl in H. unfold emit, raise in H. simpl in H.
           inversion H; subst. simpl.
           exists [], lock, rest, e0, evs. simpl. rewrite app_nil_r.
           repeat split; auto.
           ++ rewrite Hc, <- app_assoc. reflexivity.
           ++ left. rewrite F. repeat split; auto.
              rewrite Hg, <- app_assoc. reflexivity.
      * assert (Er : is_ReleaseError e = false).
        { destruct e; simpl in *; trivial; discriminate. }
        rewrite Er in H. inversion H; subst.
        exists [], lock, rest, e0, (evs0 ++ [EvRelease l (Some e)]). simpl.
        rewrite app_nil_r. repeat split; auto.
        -- rewrite Hc, <- app_assoc. reflexivity.
        -- right. exists e, evs0, l. auto.
    + unfold bind at 1, held_append in H. simpl in H.
      apply IH in H. destruct r as [u|e].
      * destruct H as (Hc & Hh & Hg). simpl in Hc, Hh, Hg.
        rewrite Hc, Hh, <- !app_assoc. auto.
      * destruct H as (pre & l & post & e0 & evs & Ht & Hc & Hr & Hh & Hres).
        simpl in Hc, Hh, Hres.
        exists (lock :: pre), l, post, e0, evs. subst rest. simpl.
        rewrite Hc, <- !app_assoc. rewrite <- app_assoc in Hh. simpl in Hh.
        repeat split; auto.
Qed.

Lemma release_failures_all (evs : list event) :
  forallb is_release evs = true -> release_failures evs = failures evs.
Proof.
  intros H. unfold release_failures.
  destruct (filter_release_all _ H) as [-> _]. reflexivity.
Qed.

Lemma release_failures_entry
  (pre : list Lock) (l : Lock) (r : option exn) (evs : list event) :
  forallb is_release evs = true ->
  release_failures (map (fun x => EvAcquire x None) pre ++ EvAcquire l r :: evs)
  = failures evs.
Proof.
  intros H. unfold release_failures. rewrite filter_app. simpl.
  destruct (filter_acquire_ok pre) as (_ & -> & _).
  destruct (filter_release_all _ H) as [-> _]. reflexivity.
Qed.

Lemma In_release_entry
  (pre : list Lock) (l0 : Lock) (r : option exn) (evs : list event)
  (l : Lock) (e : option exn) :
  In (EvRelease l e) (map (fun x => EvAcquire x None) pre ++ EvAcquire l0 r :: evs)
  -> In (EvRelease l e) evs.
Proof.
  intros H. apply in_app_or in H. destruct H as [H | [H | H]]; trivial.
  - apply in_map_iff in H. destruct H as (x & K & _). discriminate.
  - discriminate.
Qed.

(* ===================================================================== *)
(** * The claims on entry, exit and teardown *)
(* ===================================================================== *)

(** C1 (amended): when the k-th [acquire()] of an entry fails with [e], the
    calls made are the k acquisitions followed by releases.  If every error
    raised by these rollback releases is an [Exception], [__enter__] raises
    [e] itself, the first k-1 locks are released in reverse order, no lock
    is held afterwards, and the errors of the rollback, when there are some,
    are logged as one [ReleaseError] and not raised.  If a rollback release
    raises an error outside [Exception], the rollback ends at that call,
    that error is what [__enter__] raises, only the acquisition failure is
    logged and the locks not yet released stay held. *)
Theorem enter_rollback_on_acquire_failure
  (m m' : machine W) (r : outcome unit) (k : nat) (lock : Lock) (e : exn) :
  _held_locks (self m) = [] ->
  __enter__ m = (m', r) ->
  1 <= k ->
  nth_error (filter is_acquire (new_calls m m')) (k - 1)
    = Some (EvAcquire lock (Some e)) ->
  acquired (new_calls m m') = firstn k (_locks (self m)) /\
  (exists evs,
     new_calls m m' =
       map (fun l => EvAcquire l None) (firstn (k - 1) (_locks (self m)))
         ++ EvAcquire lock (Some e) :: evs /\
     forallb is_release evs = true /\
     firstn (k - 1) (_locks (self m))
       = _held_locks (self m') ++ rev (released (new_calls m m'))) /\
  (release_errors_Exception (new_calls m m') ->
   rollback_claim m m' r k e /\
   new_log m m' =
     LogError "Error acquiring lock %r" lock ::
     match release_failures (new_calls m m') with
     | [] => []
     | _ :: _ =>
         [LogException "Error releasing locks"
            (ReleaseError (release_failures (new_calls m m')))]
     end) /\
  (forall l e',
     In (EvRelease l (Some e')) (new_calls m m') ->
     is_Exception e' = false ->
     r = Raise e' /\
     (exists evs0, new_calls m m' = evs0 ++ [EvRelease l (Some e')]) /\
     new_log m m' = [LogError "Error acquiring lock %r" lock]).
Proof.
  intros Hheld Hrun Hk Hnth. unfold __enter__ in Hrun.
  apply enter_loop_strict in Hrun. destruct r as [u|e1].
  - destruct Hrun as (Hc & _ & _). apply new_calls_app in Hc.
    rewrite Hc in Hnth. destruct (filter_acquire_ok (_locks (self m))) as [F _].
    rewrite F in Hnth. apply nth_error_ok_acquire in Hnth. contradiction.
  - destruct Hrun as (pre & l0 & post & e0 & evs & Ht & Hc & Hr & Hh & Hres).
    apply new_calls_app in Hc. rewrite Hheld in Hh. simpl in Hh.
    destruct (filter_release_all _ Hr) as [Fr Fa].
    destruct (filter_acquire_ok pre) as (A1 & A2 & A3 & A4).
    assert (Hacq : filter is_acquire (new_calls m m')
                   = map (fun l => EvAcquire l None) pre ++ [EvAcquire l0 (Some e0)]).
    { rewrite Hc, filter_app. simpl. rewrite A1, Fa. reflexivity. }
    assert (Hrel : released (new_calls m m') = map event_lock evs).
    { unfold released. rewrite Hc, filter_app. simpl. rewrite A2, Fr.
      reflexivity. }
    assert (Hrf : release_failures (new_calls m m') = failures evs).
    { rewrite Hc. apply release_failures_entry. exact Hr. }
    rewrite Hacq in Hnth. apply nth_error_failed_acquire in Hnth.
    destruct Hnth as (Hk1 & -> & ->).
    assert (Hpre : firstn (k - 1) (_locks (self m)) = pre).
    { rewrite Ht, Hk1, firstn_app, Nat.sub_diag, firstn_all. simpl.
      apply app_nil_r. }
    assert (Hprek : firstn k (_locks (self m)) = pre ++ [l0]).
    { replace k with (List.length pre + 1) by lia.
      rewrite Ht, firstn_app_2. reflexivity. }
    split; [|split; [|split]].
    + unfold acquired. rewrite Hacq, map_app, A3, Hprek. reflexivity.
    + exists evs. rewrite Hpre, Hrel. auto.
    + intros Hexc. unfold release_errors_Exception in Hexc.
      rewrite Hrf in Hexc. rewrite Hrf.
      destruct Hres as [(_ & Hempty & -> & Hlog)
                       | (e' & evs0 & l & Hne & Hev & _ & _ & _)].
      * rewrite Hempty in Hh. simpl in Hh. apply new_log_app in Hlog.
        split; [|exact Hlog]. repeat split; trivial.
        rewrite Hrel, Hpre, Hh, rev_involutive. reflexivity.
      * rewrite Hev in Hexc. destruct (@abort_not_Exception_run _ _ _ Hne Hexc).
    + intros l e' Hin Hne. rewrite Hc in Hin. apply In_release_entry in Hin.
      destruct Hres as [(Hall & _) | (e1' & evs0 & l1 & Hne1 & Hev & Hall & -> & Hlog)].
      * destruct (@Exception_errors_no_other _ _ _ Hall Hin Hne).
      * rewrite Hev in Hin.
        destruct (@aborting_call_is_last _ _ _ _ _ Hall Hin Hne) as [-> ->].
        apply new_log_app in Hlog. repeat split; trivial.
        exists (map (fun l => EvAcquire l None) pre
                  ++ EvAcquire l0 (Some e0) :: evs0).
        rewrite Hc, Hev, <- app_assoc. reflexivity.
Qed.

(** The conclusions shared by the claims on exit: with release errors inside
    [Exception] the pass releases every held lock in reverse order and
    leaves none held; an error outside [Exception] is raised by the last
    call of the pass and is what [__exit__] raises, with nothing logged. *)
Lemma exit_cases (exc : option exn) (m m' : machine W)
  (r : outcome (option bool)) :
  __exit__ exc m = (m', r) ->
  forallb is_release (new_calls m m') = true /\
  _held_locks (self m)
    = _held_locks (self m') ++ rev (released (new_calls m m')) /\
  (release_errors_Exception (new_calls m m') ->
   _held_locks (self m') = [] /\
   released (new_calls m m') = rev (_held_locks (self m)) /\
   match failures (new_calls m m') with
   | [] => r = Return None /\ new_log m m' = []
   | _ :: _ =>
       match exc with
       | None =>
           r = Raise (ReleaseError (failures (new_calls m m'))) /\
           new_log m m' = []
       | Some _ =>
           r = Return (Some false) /\
           new_log m m' =
             [LogException "Error releasing locks"
                (ReleaseError (failures (new_calls m m')))]
       end
   end) /\
  (forall l e',
     In (EvRelease l (Some e')) (new_calls m m') ->
     is_Exception e' = false ->
     r = Raise e' /\
     (exists evs0, new_calls m m' = evs0 ++ [EvRelease l (Some e')]) /\
     new_log m m' = []).
Proof.
  intros H. apply exit_strict in H.
  destruct H as (evs & Hc & Hr & Hd & Hres).
  apply new_calls_app in Hc. rewrite Hc.
  destruct (filter_release_all _ Hr) as [Fr _].
  assert (Hrel : released evs = map event_lock evs).
  { unfold released. rewrite Fr. reflexivity. }
  rewrite Hrel. split; [exact Hr|]. split; [exact Hd|]. split.
  - intros Hexc. unfold release_errors_Exception in Hexc.
    rewrite (release_failures_all _ Hr) in Hexc.
    destruct Hres as [(_ & Hempty & Hres) | (e & evs0 & l & Hne & Hev & _)].
    + rewrite Hempty in Hd. simpl in Hd. split; [exact Hempty|]. split.
      { rewrite Hd, rev_involutive. reflexivity. }
      destruct (failures evs) as [|e0 es].
      * destruct Hres as [-> Hg]. split; trivial.
        apply new_log_app. rewrite app_nil_r. exact Hg.
      * destruct exc as [eb|]; destruct Hres as [-> Hg]; split; trivial.
        -- apply new_log_app. exact Hg.
        -- apply new_log_app. rewrite app_nil_r. exact Hg.
    + rewrite Hev in Hexc. destruct (@abort_not_Exception_run _ _ _ Hne Hexc).
  - intros l e' Hin Hne.
    destruct Hres as [(Hall & _) | (e & evs0 & l0 & Hne0 & Hev & Hall & -> & Hg)].
    + destruct (@Exception_errors_no_other _ _ _ Hall Hin Hne).
    + rewrite Hev in Hin.
      destruct (@aborting_call_is_last _ _ _ _ _ Hall Hin Hne) as [-> ->].
      repeat split; trivial.
      * exists evs0. exact Hev.
      * apply new_log_app. rewrite app_nil_r. exact Hg.
Qed.

(** C2 (amended): when the block raised [e_body] and every error raised by
    a release of this exit is an [Exception], [__exit__] returns a false
    value, so the caller observes [e_body] itself, whether releases failed
    or not; the release errors, if any, are logged as one [ReleaseError] and
    not raised.  When a release of this exit raises an error outside
    [Exception], that error is not caught: it is what [__exit__] raises and
    what the caller observes, it is the last call of the exit and nothing
    is logged. *)
Theorem exit_keeps_body_error
  (m m' : machine W) (r : outcome (option bool)) (e_body : exn) :
  __exit__ (Some e_body) m = (m', r) ->
  (release_errors_Exception (new_calls m m') ->
   exit_observed (Some e_body) r = Raise e_body /\
   (exists v, r = Return v /\ truthy v = false) /\
   released (new_calls m m') = rev (_held_locks (self m)) /\
   new_log m m' =
     match failures (new_calls m m') with
     | [] => []
     | _ :: _ =>
         [LogException "Error releasing locks"
            (ReleaseError (failures (new_calls m m')))]
     end) /\
  (forall l e',
     In (EvRelease l (Some e')) (new_calls m m') ->
     is_Exception e' = false ->
     r = Raise e' /\
     exit_observed (Some e_body) r = Raise e' /\
     (exists evs0, new_calls m m' = evs0 ++ [EvRelease l (Some e')]) /\
     new_log m m' = []).
Proof.
  intros H. destruct (@exit_cases _ _ _ _ H) as (_ & _ & Hok & Hbad). split.
  - intros Hexc. destruct (Hok Hexc) as (_ & Hrel & Hres).
    destruct (failures (new_calls m m')) as [|e0 es];
      destruct Hres as [-> Hlog]; simpl; repeat split; eauto.
  - intros l e' Hin Hne. destruct (Hbad l e' Hin Hne) as (-> & Hlast & Hlog).
    simpl. auto.
Qed.

(** C3 (amended): when the block ended normally and one or more
    [release()] calls of the exit failed: if every one of these errors is an
    [Exception], [__exit__] raises one [ReleaseError] carrying all of them,
    in the order of the calls, which is the reverse of the acquisition
    order, and nothing is logged; if one of them is outside [Exception], it
    is raised as it is, without aggregation, by the last call of the
    exit. *)
Theorem exit_raises_aggregate_ReleaseError
  (m m' : machine W) (r : outcome (option bool)) :
  __exit__ None m = (m', r) ->
  failures (new_calls m m') <> [] ->
  (release_errors_Exception (new_calls m m') ->
   r = Raise (ReleaseError (failures (new_calls m m'))) /\
   exit_observed None r = Raise (ReleaseError (failures (new_calls m m'))) /\
   forallb is_release (new_calls m m') = true /\
   released (new_calls m m') = rev (_held_locks (self m)) /\
   new_log m m' = []) /\
  (forall l e',
     In (EvRelease l (Some e')) (new_calls m m') ->
     is_Exception e' = false ->
     r = Raise e' /\
     exit_observed None r = Raise e' /\
     (exists evs0, new_calls m m' = evs0 ++ [EvRelease l (Some e')]) /\
     new_log m m' = []).
Proof.
  intros H Hf. destruct (@exit_cases _ _ _ _ H) as (Hr & _ & Hok & Hbad). split.
  - intros Hexc. destruct (Hok Hexc) as (_ & Hrel & Hres).
    destruct (failures (new_calls m m')) as [|e0 es]; [congruence|].
    destruct Hres as [-> Hlog]. simpl. auto.
  - intros l e' Hin Hne. destruct (Hbad l e' Hin Hne) as (-> & Hlast & Hlog).
    simpl. auto.
Qed.

(** C5 (amended): when every [acquire()] of the entry succeeded, the
    [release()] calls of the exit are made on a prefix of the acquired locks
    taken in reverse, the locks not reached staying held; when every error
    raised by a release of this exit is an [Exception] the sequence of
    releases is the exact reverse of the sequence of acquisitions; a release
    error outside [Exception] stops the pass: it is raised by the last call
    of the exit. *)
Theorem exit_releases_in_reverse_acquisition_order
  (m m1 m2 m3 : machine W) (r1 : outcome unit) (exc : option exn)
  (r3 : outcome (option bool)) :
  _held_locks (self m) = [] ->
  __enter__ m = (m1, r1) ->
  failures (filter is_acquire (new_calls m m1)) = [] ->
  self m2 = self m1 ->
  __exit__ exc m2 = (m3, r3) ->
  r1 = Return tt /\
  acquired (new_calls m m1) = _locks (self m) /\
  rev (acquired (new_calls m m1))
    = released (new_calls m2 m3) ++ rev (_held_locks (self m3)) /\
  (release_errors_Exception (new_calls m2 m3) ->
   released (new_calls m2 m3) = rev (acquired (new_calls m m1))) /\
  (forall l e',
     In (EvRelease l (Some e')) (new_calls m2 m3) ->
     is_Exception e' = false ->
     r3 = Raise e' /\
     exists evs0, new_calls m2 m3 = evs0 ++ [EvRelease l (Some e')]).
Proof.
  intros Hheld Hen Hf Hself Hex.
  destruct (enter_all_acquired m Hen Hf) as (-> & Ha & _ & Hh).
  rewrite Hheld in Hh. simpl in Hh. rewrite Ha.
  destruct (@exit_cases _ _ _ _ Hex) as (_ & Hd & Hok & Hbad).
  rewrite Hself, Hh in Hd, Hok.
  repeat split; trivial.
  - rewrite Hd at 1. rewrite rev_app_distr, rev_involutive. reflexivity.
  - intros Hexc. destruct (Hok Hexc) as (_ & Hrel & _). exact Hrel.
  - destruct (Hbad l e' H H0) as (K & _). exact K.
  - destruct (Hbad l e' H H0) as (_ & K & _). exact K.
Qed.

Lemma release_cases (m m' : machine W) (r : outcome unit) :
  _release m = (m', r) ->
  forallb is_release (new_calls m m') = true /\
  _held_locks (self m)
    = _held_locks (self m') ++ rev (released (new_calls m m')) /\
  (release_errors_Exception (new_calls m m') ->
   _held_locks (self m') = [] /\
   released (new_calls m m') = rev (_held_locks (self m))) /\
  (forall l e',
     In (EvRelease l (Some e')) (new_calls m m') ->
     is_Exception e' = false ->
     r = Raise e' /\
     exists evs0, new_calls m m' = evs0 ++ [EvRelease l (Some e')]).
Proof.
  intros H. apply _release_strict in H.
  destruct H as (evs & Hc & Hr & Hd & _ & _ & Hres).
  apply new_calls_app in Hc. rewrite Hc.
  destruct (filter_release_all _ Hr) as [Fr _].
  assert (Hrel : released evs = map event_lock evs).
  { unfold released. rewrite Fr. reflexivity. }
  rewrite Hrel. split; [exact Hr|]. split; [exact Hd|]. split.
  - intros Hexc. unfold release_errors_Exception in Hexc.
    rewrite (release_failures_all _ Hr) in Hexc.
    destruct Hres as [(_ & Hempty & _) | (e & evs0 & l & Hne & Hev & _)].
    + rewrite Hempty in Hd. simpl in Hd. split; [exact Hempty|].
      rewrite Hd, rev_involutive. reflexivity.
    + rewrite Hev in Hexc. destruct (@abort_not_Exception_run _ _ _ Hne Hexc).
  - intros l e' Hin Hne.
    destruct Hres as [(Hall & _) | (e & evs0 & l0 & Hne0 & Hev & Hall & ->)].
    + destruct (@Exception_errors_no_other _ _ _ Hall Hin Hne).
    + rewrite Hev in Hin.
      destruct (@aborting_call_is_last _ _ _ _ _ Hall Hin Hne) as [-> ->].
      split; trivial. exists evs0. exact Hev.
Qed.

(** C8 (amended): in every teardown pass, by [_release] itself, at exit or
    as the rollback of a failed entry, the [release()] calls are made on the
    locks popped from the held list, one call per lock, and a lock whose
    [release()] was called is no longer held, whatever that call did.  When
    every error raised by a release of the pass is an [Exception], the pass
    pops every lock and the held list is empty at its end, even if every
    call failed.  A release error outside [Exception] ends the pass at
    once: it is raised by the last call of the pass, and the locks not yet
    popped are still held. *)
Theorem teardown_pops_each_lock_once :
  (forall m m' r,
     _release m = (m', r) ->
     forallb is_release (new_calls m m') = true /\
     teardown_inv (_held_locks (self m)) (_held_locks (self m'))
       (new_calls m m') /\
     (release_errors_Exception (new_calls m m') ->
      _held_locks (self m') = [] /\
      released (new_calls m m') = rev (_held_locks (self m))) /\
     (forall l e',
        In (EvRelease l (Some e')) (new_calls m m') ->
        is_Exception e' = false ->
        r = Raise e' /\
        exists evs0, new_calls m m' = evs0 ++ [EvRelease l (Some e')])) /\
  (forall exc m m' r,
     __exit__ exc m = (m', r) ->
     forallb is_release (new_calls m m') = true /\
     teardown_inv (_held_locks (self m)) (_held_locks (self m'))
       (new_calls m m') /\
     (release_errors_Exception (new_calls m m') ->
      _held_locks (self m') = [] /\
      released (new_calls m m') = rev (_held_locks (self m))) /\
     (forall l e',
        In (EvRelease l (Some e')) (new_calls m m') ->
        is_Exception e' = false ->
        r = Raise e' /\
        exists evs0, new_calls m m' = evs0 ++ [EvRelease l (Some e')])) /\
  (forall m m' e,
     _held_locks (self m) = [] ->
     __enter__ m = (m', Raise e) ->
     teardown_inv (removelast (acquired (new_calls m m')))
       (_held_locks (self m')) (new_calls m m') /\
     (release_errors_Exception (new_calls m m') ->
      _held_locks (self m') = [] /\
      released (new_calls m m')
        = rev (removelast (acquired (new_calls m m')))) /\
     (forall l e',
        In (EvRelease l (Some e')) (new_calls m m') ->
        is_Exception e' = false ->
        e = e' /\
        exists evs0, new_calls m m' = evs0 ++ [EvRelease l (Some e')])).
Proof.
  split; [|split].
  - intros m m' r H.
    destruct (@release_cases _ _ _ H) as (Hr & Hd & Hok & Hbad).
    split; [exact Hr|]. split; [apply teardown_inv_intro; exact Hd|].
    split; [exact Hok | exact Hbad].
  - intros exc m m' r H.
    destruct (@exit_cases _ _ _ _ H) as (Hr & Hd & Hok & Hbad).
    split; [exact Hr|]. split; [apply teardown_inv_intro; exact Hd|]. split.
    + intros Hexc. destruct (Hok Hexc) as (K1 & K2 & _). auto.
    + intros l e' Hin Hne. destruct (Hbad l e' Hin Hne) as (K1 & K2 & _). auto.
  - intros m m' e Hheld H. unfold __enter__ in H.
    apply enter_loop_strict in H.
    destruct H as (pre & l0 & post & e0 & evs & _ & Hc & Hr & Hh & Hres).
    apply new_calls_app in Hc. rewrite Hheld in Hh. simpl in Hh.
    destruct (filter_release_all _ Hr) as [Fr Fa].
    destruct (filter_acquire_ok pre) as (A1 & A2 & A3 & _).
    assert (Hacq : removelast (acquired (new_calls m m')) = pre).
    { unfold acquired. rewrite Hc, filter_app. simpl.
      rewrite A1, Fa, map_app, A3. simpl. apply removelast_last. }
    assert (Hrel : released (new_calls m m') = map event_lock evs).
    { unfold released. rewrite Hc, filter_app. simpl. rewrite A2, Fr.
      reflexivity. }
    assert (Hrf : release_failures (new_calls m m') = failures evs).
    { rewrite Hc. apply release_failures_entry. exact Hr. }
    rewrite Hacq. split; [|split].
    + apply teardown_inv_intro. rewrite Hrel. exact Hh.
    + intros Hexc. unfold release_errors_Exception in Hexc.
      rewrite Hrf in Hexc.
      destruct Hres as [(_ & Hempty & _) | (e' & evs0 & l & Hne & Hev & _)].
      * split; trivial. rewrite Hrel, Hh, Hempty. simpl.
        rewrite rev_involutive. reflexivity.
      * rewrite Hev in Hexc.
        destruct (@abort_not_Exception_run _ _ _ Hne Hexc).
    + intros l e' Hin Hne. rewrite Hc in Hin. apply In_release_entry in Hin.
      destruct Hres as [(Hall & _) | (e1 & evs0 & l1 & Hne1 & Hev & Hall & -> & _)].
      * destruct (@Exception_errors_no_other _ _ _ Hall Hin Hne).
      * rewrite Hev in Hin.
        destruct (@aborting_call_is_last _ _ _ _ _ Hall Hin Hne) as [-> ->].
        split; trivial.
        exists (map (fun l => EvAcquire l None) pre
                  ++ EvAcquire l0 (Some e0) :: evs0).
        rewrite Hc, Hev, <- app_assoc. reflexivity.
Qed.

Lemma release_failures_after_acquires (ls : list Lock) (evs : list event) :
  forallb is_release evs = true ->
  release_failures (map (fun x => EvAcquire x None) ls ++ evs) = failures evs.
Proof.
  intros H. unfold release_failures. rewrite filter_app.
  destruct (filter_acquire_ok ls) as (_ & -> & _).
  destruct (filter_release_all _ H) as [-> _]. reflexivity.
Qed.

(* ===================================================================== *)
(** * Further properties, by the release errors of the run *)
(* ===================================================================== *)

(** X8: a guard can be used again.  After an entry from a guard that holds
    nothing and an exit whose release errors are all inside [Exception],
    the guard object is as it was before the entry: the same working list
    and nothing held; a failed entry whose rollback met only errors inside
    [Exception] already leaves it so. *)
Theorem guard_returns_to_constructed_state
  (m m1 m2 m3 : machine W) (r1 : outcome unit) (exc : option exn)
  (r3 : outcome (option bool)) :
  _held_locks (self m) = [] ->
  __enter__ m = (m1, r1) ->
  self m2 = self m1 ->
  __exit__ exc m2 = (m3, r3) ->
  (release_errors_Exception (new_calls m2 m3) -> self m3 = self m) /\
  (release_errors_Exception (new_calls m m1) ->
   forall e, r1 = Raise e -> self m1 = self m).
Proof.
  intros Hheld Hen Hself Hex.
  assert (Hl1 : _locks (self m1) = _locks (self m)).
  { unfold __enter__ in Hen. apply enter_loop_inv in Hen.
    destruct Hen as [K _]. exact K. }
  split.
  - intros Hexc.
    destruct (@exit_cases _ _ _ _ Hex) as (_ & _ & Hok & _).
    destruct (Hok Hexc) as (Hempty & _).
    apply exit_inv in Hex. destruct Hex as (evs & rr & _ & _ & _ & Hl3 & _).
    apply context_eq; congruence.
  - intros Hexc e ->. unfold __enter__ in Hen.
    apply enter_loop_strict in Hen.
    destruct Hen as (pre & l0 & post & e0 & evs & _ & Hc & Hr & _ & Hres).
    apply new_calls_app in Hc. unfold release_errors_Exception in Hexc.
    rewrite Hc, (@release_failures_entry _ _ _ _ Hr) in Hexc.
    apply context_eq; [exact Hl1|]. rewrite Hheld.
    destruct Hres as [(_ & Hempty & _) | (e' & evs0 & l & Hne & Hev & _)].
    + exact Hempty.
    + rewrite Hev in Hexc. destruct (@abort_not_Exception_run _ _ _ Hne Hexc).
Qed.

(** X9: a second exit does nothing.  After an exit whose release errors are
    all inside [Exception], whatever it returned or raised, another
    [__exit__] makes no call, logs nothing and returns [None]. *)
Theorem second_exit_is_noop
  (exc exc' : option exn) (m m1 : machine W) (r : outcome (option bool)) :
  __exit__ exc m = (m1, r) ->
  release_errors_Exception (new_calls m m1) ->
  __exit__ exc' m1 = (m1, Return None).
Proof.
  intros H Hexc. destruct (@exit_cases _ _ _ _ H) as (_ & _ & Hok & _).
  destruct (Hok Hexc) as (Hempty & _). apply exit_noop. exact Hempty.
Qed.

(** X10: [__enter__] does not look at the held list.  On a guard that
    already holds locks, a successful entry acquires the whole working list
    again and appends it to the held list, without any release or log
    record; a failed one whose rollback releases raise only errors inside
    [Exception] rolls back every held lock, the ones held before the entry
    included, in reverse order, and leaves none held. *)
Theorem entry_on_held_guard
  (m m' : machine W) (r : outcome unit) :
  __enter__ m = (m', r) ->
  (forall u, r = Return u ->
     _held_locks (self m') = _held_locks (self m) ++ _locks (self m) /\
     acquired_ok (new_calls m m') = _locks (self m) /\
     released (new_calls m m') = [] /\
     log m' = log m) /\
  (forall e, r = Raise e ->
     release_errors_Exception (new_calls m m') ->
     _held_locks (self m') = [] /\
     released (new_calls m m')
       = rev (_held_locks (self m) ++ acquired_ok (new_calls m m'))).
Proof.
  intros H. unfold __enter__ in H. apply enter_loop_strict in H. split.
  - intros u ->. destruct H as (Hc & Hh & Hg). apply new_calls_app in Hc.
    destruct (filter_acquire_ok (_locks (self m))) as (_ & A2 & A3 & _).
    destruct (@filter_ok_acquire_facts (_locks (self m)) [] eq_refl) as [O1 _].
    unfold acquired_ok, released. rewrite Hc, O1, A2, A3. auto.
  - intros e -> Hexc.
    destruct H as (pre & l0 & post & e0 & evs & _ & Hc & Hr & Hh & Hres).
    apply new_calls_app in Hc. unfold release_errors_Exception in Hexc.
    rewrite Hc, (@release_failures_entry _ _ _ _ Hr) in Hexc.
    destruct (filter_release_all _ Hr) as [Fr _].
    destruct (filter_acquire_ok pre) as (_ & A2 & A3 & _).
    destruct (filter_ok_acquire_facts pre evs Hr) as [O1 O2].
    assert (Hempty : _held_locks (self m') = []).
    { destruct Hres as [(_ & K & _) | (e' & evs0 & l & Hne & Hev & _)]; trivial.
      rewrite Hev in Hexc. destruct (@abort_not_Exception_run _ _ _ Hne Hexc). }
    split; [exact Hempty|]. rewrite Hempty in Hh. simpl in Hh.
    unfold acquired_ok, released. rewrite Hc, !filter_app. simpl.
    rewrite O1, O2, A2, Fr, app_nil_r, A3, Hh, rev_involutive. reflexivity.
Qed.

(** X11: a [with] statement releases what it acquired.  On every path the
    [release()] calls are made on the locks whose [acquire()] returned, last
    acquired first, and the locks left held at the end are the acquired ones
    not yet released; when every error raised by a release of the statement
    is an [Exception], every acquired lock is released and none is left
    held, whether the entry, the block or a release failed. *)
Theorem with_statement_releases_what_it_acquired
  (locks : list Lock) (body : W -> W * option exn) (m m' : machine W)
  (r : outcome unit) :
  with_context locks body m = (m', r) ->
  (exists rest,
     rev (acquired_ok (new_calls m m')) = released (new_calls m m') ++ rest /\
     _held_locks (self m') = rev rest) /\
  (release_errors_Exception (new_calls m m') ->
   _held_locks (self m') = [] /\
   released (new_calls m m') = rev (acquired_ok (new_calls m m'))).
Proof.
  intros H. apply with_context_cases in H.
  destruct H as [(e & Hen & ->) | (m1 & m2 & exc & r3 & Hen & Hs & Hc2 & _ & _ & Hex & ->)].
  - unfold __enter__ in Hen. apply enter_loop_strict in Hen.
    destruct Hen as (pre & l0 & post & e0 & evs & _ & Hc & Hr & Hh & Hres).
    simpl in Hc, Hh. apply new_calls_app in Hc.
    destruct (filter_release_all _ Hr) as [Fr _].
    destruct (filter_acquire_ok pre) as (_ & A2 & A3 & _).
    destruct (filter_ok_acquire_facts pre evs Hr) as [O1 O2].
    assert (Ha : acquired_ok (new_calls m m') = pre).
    { unfold acquired_ok. rewrite Hc, !filter_app. simpl.
      rewrite O1, O2, app_nil_r, A3. reflexivity. }
    assert (Hrel : released (new_calls m m') = map event_lock evs).
    { unfold released. rewrite Hc, !filter_app. simpl. rewrite A2, Fr.
      reflexivity. }
    rewrite Ha, Hrel. split.
    + exists (rev (_held_locks (self m'))).
      rewrite Hh, rev_app_distr, !rev_involutive. auto.
    + intros Hexc. unfold release_errors_Exception in Hexc.
      rewrite Hc, (@release_failures_entry _ _ _ _ Hr) in Hexc.
      assert (Hempty : _held_locks (self m') = []).
      { destruct Hres as [(_ & K & _) | (e' & evs0 & l & Hne & Hev & _)];
          trivial.
        rewrite Hev in Hexc.
        destruct (@abort_not_Exception_run _ _ _ Hne Hexc). }
      split; [exact Hempty|]. rewrite Hh, Hempty. simpl.
      rewrite rev_involutive. reflexivity.
  - unfold __enter__ in Hen. apply enter_loop_strict in Hen.
    destruct Hen as (Hc & Hh & _). simpl in Hc, Hh.
    set (ws := sorted (py_set locks)) in *.
    apply exit_strict in Hex.
    destruct Hex as (evs & Hc3 & Hr & Hd & Hres).
    rewrite Hs, Hh in Hd. rewrite Hc2, Hc, <- app_assoc in Hc3.
    apply new_calls_app in Hc3.
    destruct (filter_release_all _ Hr) as [Fr _].
    destruct (filter_acquire_ok ws) as (_ & A2 & A3 & _).
    destruct (filter_ok_acquire_facts ws evs Hr) as [O1 O2].
    assert (Ha : acquired_ok (new_calls m m') = ws).
    { unfold acquired_ok. rewrite Hc3, !filter_app, O1, O2, app_nil_r, A3.
      reflexivity. }
    assert (Hrel : released (new_calls m m') = map event_lock evs).
    { unfold released. rewrite Hc3, !filter_app, A2, Fr. reflexivity. }
    rewrite Ha, Hrel. split.
    + exists (rev (_held_locks (self m'))).
      rewrite Hd, rev_app_distr, !rev_involutive. auto.
    + intros Hexc. unfold release_errors_Exception in Hexc.
      rewrite Hc3, (@release_failures_after_acquires _ _ Hr) in Hexc.
      assert (Hempty : _held_locks (self m') = []).
      { destruct Hres as [(_ & K & _) | (e' & evs0 & l & Hne & Hev & _)];
          trivial.
        rewrite Hev in Hexc.
        destruct (@abort_not_Exception_run _ _ _ Hne Hexc). }
      split; [exact Hempty|]. rewrite Hd, Hempty. simpl.
      rewrite rev_involutive. reflexivity.
Qed.

(* ===================================================================== *)
(** * The calls of an entry *)
(* ===================================================================== *)

(** C4: entry iterates the working list.  The working list built from any
    input holds the locks of the input, each once, in non-decreasing
    (ns, name) order; [__enter__] calls [acquire()] on its locks one after
    the other in that order, on all of them when every call returns and up
    to the first failing call otherwise, so the sequence of [acquire()]
    calls is non-decreasing under the (ns, name) comparison; every recorded
    call is a call made on the lock. *)
Theorem acquisition_order_non_decreasing
  (locks : list Lock) (m m1 m2 : machine W) (r : outcome unit) :
  __init__ locks m = (m1, Return tt) ->
  __enter__ m1 = (m2, r) ->
  (forall x, In x (_locks (self m1)) <-> In x locks) /\
  NoDup (_locks (self m1)) /\
  StronglySorted key_le (_locks (self m1)) /\
  Forall event_sound (new_calls m1 m2) /\
  ((r = Return tt /\
    filter is_acquire (new_calls m1 m2)
      = map (fun l => EvAcquire l None) (_locks (self m1))) \/
   (exists pre l post e,
      _locks (self m1) = pre ++ l :: post /\
      filter is_acquire (new_calls m1 m2)
        = map (fun l => EvAcquire l None) pre ++ [EvAcquire l (Some e)])) /\
  StronglySorted key_le (acquired (new_calls m1 m2)).
Proof.
  intros Hinit Hen.
  assert (Hl : _locks (self m1) = sorted (py_set locks)).
  { inversion Hinit. reflexivity. }
  rewrite Hl.
  split; [intros x; apply working_list_In|].
  split; [apply working_list_NoDup|].
  split; [apply sorted_is_sorted|].
  pose proof Hen as Hs. unfold __enter__ in Hs. apply enter_loop_sound in Hs.
  destruct Hs as (evs & Hc & Hsound). apply new_calls_app in Hc.
  split; [rewrite Hc; exact Hsound|].
  destruct (enter_acquired_prefix _ Hen) as [rest Hrest].
  rewrite Hl in Hrest. split.
  - unfold __enter__ in Hen. apply enter_loop_strict in Hen.
    rewrite Hl in Hen. destruct r as [[]|e].
    + left. destruct Hen as (Hc' & _). apply new_calls_app in Hc'.
      split; [reflexivity|]. rewrite Hc'.
      destruct (filter_acquire_ok (sorted (py_set locks))) as [A1 _].
      exact A1.
    + right.
      destruct Hen as (pre & l0 & post & e0 & evs' & Ht & Hc' & Hr & _).
      apply new_calls_app in Hc'. exists pre, l0, post, e0.
      split; [exact Ht|]. rewrite Hc', filter_app. simpl.
      destruct (filter_acquire_ok pre) as [A1 _].
      destruct (filter_release_all _ Hr) as [_ Fa].
      rewrite A1, Fa. reflexivity.
  - apply StronglySorted_app_l with (b := rest).
    rewrite <- Hrest. apply sorted_is_sorted.
Qed.

End Guard.

(* ===================================================================== *)
(** * The claims on sample guards *)
(* ===================================================================== *)

Lemma rev_is_set_order (l : list Lock) : Permutation (rev l) l.
Proof. apply Permutation_sym, Permutation_rev. Qed.

(** C1 as stated fails: the same entry with a rollback release interrupted
    by [KeyboardInterrupt] raises the interrupt and not the acquisition
    error, releases b only and leaves a held. *)
Lemma enter_rollback_counterexample :
  nth_error
    (filter is_acquire
       (new_calls abc_guard
          (fst (__enter__ (acquire_failing_on "c") release_interrupted
                  abc_guard)))) (3 - 1)
    = Some (EvAcquire (vol "c") (Some (Exc "AcquireError"))) /\
  snd (__enter__ (acquire_failing_on "c") release_interrupted abc_guard)
    = Raise (BaseExc "KeyboardInterrupt") /\
  released
    (new_calls abc_guard
       (fst (__enter__ (acquire_failing_on "c") release_interrupted abc_guard)))
    = [vol "b"] /\
  _held_locks
    (self (fst (__enter__ (acquire_failing_on "c") release_interrupted
                  abc_guard))) = [vol "a"] /\
  ~ rollback_claim abc_guard
      (fst (__enter__ (acquire_failing_on "c") release_interrupted abc_guard))
      (snd (__enter__ (acquire_failing_on "c") release_interrupted abc_guard))
      3 (Exc "AcquireError").
Proof.
  repeat split; try reflexivity.
  intros [H _]. vm_compute in H. discriminate.
Qed.

(** C2 as stated fails: when a release at exit is interrupted by
    [KeyboardInterrupt], the caller observes the interrupt in place of the
    error of the block, also through a whole [with] statement. *)
Lemma exit_keeps_body_error_counterexample :
  exit_observed (Some (Exc "BodyError"))
    (snd (__exit__ release_interrupted (Some (Exc "BodyError")) ab_held))
    = Raise (BaseExc "KeyboardInterrupt") /\
  Raise (BaseExc "KeyboardInterrupt") <> @Raise unit (Exc "BodyError") /\
  snd (with_context acquire_ok release_interrupted (@rev Lock)
         [vol "b"; vol "a"] (fun w => (w, Some (Exc "BodyError"))) blank)
    = Raise (BaseExc "KeyboardInterrupt").
Proof.
  repeat split; try reflexivity. discriminate.
Qed.

(** C3 as stated fails: when the block succeeded and a release is
    interrupted by [KeyboardInterrupt], a release call has failed and what
    [__exit__] raises is the interrupt, not a [ReleaseError]. *)
Lemma exit_raises_aggregate_counterexample :
  failures (new_calls ab_held (fst (__exit__ release_interrupted None ab_held)))
    = [BaseExc "KeyboardInterrupt"] /\
  snd (__exit__ release_interrupted None ab_held)
    = Raise (BaseExc "KeyboardInterrupt") /\
  snd (__exit__ release_interrupted None ab_held)
    <> Raise (ReleaseError
                (failures
                   (new_calls ab_held
                      (fst (__exit__ release_interrupted None ab_held))))).
Proof.
  repeat split; try reflexivity. vm_compute. discriminate.
Qed.

(** C5 as stated fails: after a and b were acquired, an exit whose first
    release is interrupted by [KeyboardInterrupt] calls [release()] on b
    only. *)
Lemma exit_release_order_counterexample :
  failures
    (filter is_acquire
       (new_calls (guard [vol "a"; vol "b"] [])
          (fst (__enter__ acquire_ok release_interrupted
                  (guard [vol "a"; vol "b"] []))))) = [] /\
  acquired
    (new_calls (guard [vol "a"; vol "b"] [])
       (fst (__enter__ acquire_ok release_interrupted
               (guard [vol "a"; vol "b"] []))))
    = [vol "a"; vol "b"] /\
  released
    (new_calls
       (fst (__enter__ acquire_ok release_interrupted
               (guard [vol "a"; vol "b"] [])))
       (fst (__exit__ release_interrupted None
               (fst (__enter__ acquire_ok release_interrupted
                       (guard [vol "a"; vol "b"] []))))))
    = [vol "b"] /\
  [vol "b"] <> rev [vol "a"; vol "b"].
Proof.
  repeat split; try reflexivity. discriminate.
Qed.


(** C8 as stated fails for the emptiness of the held list: a teardown pass
    whose first release is interrupted by [KeyboardInterrupt] ends with
    every release call made having failed and a still held. *)
Lemma teardown_counterexample :
  new_calls ab_held (fst (_release release_interrupted ab_held))
    = [EvRelease (vol "b") (Some (BaseExc "KeyboardInterrupt"))] /\
  snd (_release release_interrupted ab_held)
    = Raise (BaseExc "KeyboardInterrupt") /\
  _held_locks (self (fst (_release release_interrupted ab_held)))
    = [vol "a"] /\
  _held_locks (self (fst (_release release_interrupted ab_held))) <> [].
Proof.
  repeat split; try reflexivity. vm_compute. discriminate.
Qed.

(** Two inputs with the same keys, in different orders and with different
    repetitions, give the same working list. *)
Lemma working_list_independent_of_input_order_witness :
  _locks (self (fst (__init__ (@rev Lock) [vol "b"; vol "a"; vol "a"] blank)))
  = _locks (self (fst (__init__ (@rev Lock)
                         [vol "a"; vol "b"; vol "b"; vol "a"] blank))).
Proof.
  refine (proj2 (@working_list_independent_of_input_order nat
                   (@rev Lock) rev_is_set_order [vol "b"; vol "a"; vol "a"]
                   [vol "a"; vol "b"; vol "b"; vol "a"] blank blank _) _).
  - intros k. simpl. split; intros H;
      repeat (destruct H as [H | H]; [rewrite <- H; auto 6|]); contradiction.
  - intros x y Hx Hy. simpl in Hx, Hy.
    repeat (destruct Hx as [Hx | Hx]; [rewrite <- Hx|]); try contradiction;
      repeat (destruct Hy as [Hy | Hy]; [rewrite <- Hy|]); try contradiction;
      intros Hk; try (exfalso; apply Hk; reflexivity); discriminate.
Defined.

(** The two scenarios of the specification: the input b, a, a is entered as
    a then b and left as b then a; on a, b, c with the acquisition of c
    failing, b then a are released and the error of c is raised. *)
Example scenario_dedup_sort_release :
  with_context acquire_ok release_ok (@rev Lock)
    [vol "b"; vol "a"; vol "a"] (fun w => (w, None)) blank
  = (mkMachine (mkContext [vol "a"; vol "b"] []) 4
       [EvAcquire (vol "a") None; EvAcquire (vol "b") None;
        EvRelease (vol "b") None; EvRelease (vol "a") None] [],
     Return tt).
Proof. reflexivity. Qed.

Example scenario_rollback :
  __enter__ (acquire_failing_on "c") release_ok abc_guard
  = (mkMachine (mkContext [vol "a"; vol "b"; vol "c"] []) 5
       [EvAcquire (vol "a") None; EvAcquire (vol "b") None;
        EvAcquire (vol "c") (Some (Exc "AcquireError"));
        EvRelease (vol "b") None; EvRelease (vol "a") None]
       [LogError "Error acquiring lock %r" (vol "c")],
     Raise (Exc "AcquireError")).
Proof. reflexivity. Qed.

(* ===================================================================== *)
(** * Locks that leave the methods of [AbstractLock] in place *)
(* ===================================================================== *)

Lemma abstract_releases_fail (W : Type) (evs : list event) :
  forallb is_release evs = true ->
  Forall (event_sound (@abstract_acquire W) (@abstract_release W)) evs ->
  failures evs = repeat NotImplementedError (List.length evs).
Proof.
  induction evs as [|[l r|l r] evs IH]; simpl; intros Hr Hs; trivial;
    [discriminate|].
  inversion Hs as [|? ? Hev Hs']; subst. simpl in Hev. destruct Hev as [w Hw].
  subst r. simpl. rewrite (IH Hr Hs'). reflexivity.
Qed.

(** X15: with the [acquire] of [AbstractLock], entering a guard that has a
    lock makes one call, on the first lock of the working list, logs it and
    raises [NotImplementedError], leaving the world untouched and nothing
    held; with the [release] of [AbstractLock], an exit after a successful
    block calls [release()] on every held lock and raises a [ReleaseError]
    with one [NotImplementedError] per held lock. *)
Theorem unimplemented_methods_raise_NotImplementedError (W : Type) :
  (forall (release : Lock -> W -> W * option exn) (m : machine W) l rest,
     _held_locks (self m) = [] ->
     _locks (self m) = l :: rest ->
     __enter__ (@abstract_acquire W) release m
     = (mkMachine (self m) (world m)
          (calls m ++ [EvAcquire l (Some NotImplementedError)])
          (log m ++ [LogError "Error acquiring lock %r" l]),
        Raise NotImplementedError)) /\
  (forall (m m' : machine W) r,
     _held_locks (self m) <> [] ->
     __exit__ (@abstract_release W) None m = (m', r) ->
     r = Raise (ReleaseError
                  (repeat NotImplementedError
                     (List.length (_held_locks (self m))))) /\
     released (new_calls m m') = rev (_held_locks (self m)) /\
     _held_locks (self m') = []).
Proof.
  split.
  - intros release [[locks held] w c lg] l rest Hh Hl. simpl in Hh, Hl.
    subst held locks. unfold __enter__. simpl.
    unfold bind, try_except, call_acquire, emit, raise. simpl.
    unfold _release, bind. rewrite release_loop_step. simpl. reflexivity.
  - intros m m' r Hne H.
    assert (Hexc : release_raises_Exception (@abstract_release W)).
    { intros l w e K. simpl in K. inversion K. reflexivity. }
    pose proof (exit_sound (@abstract_acquire W) _ _ _ H) as Hs.
    destruct (@exit_Exception _ _ _ _ _ _ Hexc H) as (Hr & Hrel & Hempty & Hres).
    rewrite (abstract_releases_fail Hr Hs) in Hres.
    assert (Hlen : List.length (new_calls m m')
                   = List.length (_held_locks (self m))).
    { destruct (filter_release_all _ Hr) as [Fr _].
      unfold released in Hrel. rewrite Fr in Hrel.
      apply (f_equal (@List.length Lock)) in Hrel.
      rewrite length_map, length_rev in Hrel. exact Hrel. }
    rewrite Hlen in Hres.
    destruct (_held_locks (self m)) as [|h t] eqn:Eh; [congruence|].
    simpl in Hres. destruct Hres as [-> _]. auto.
Qed.

(* ===================================================================== *)
(** * The further properties on sample guards *)
(* ===================================================================== *)

(** A teardown of a, b where both releases fail: the errors of the
    [ReleaseError] are inside [Exception] and no more than the locks. *)
Lemma teardown_outcomes_witness :
  Forall (fun x => is_Exception x = true)
    (failures (new_calls ab_held (fst (_release release_failing ab_held)))) /\
  List.length
    (failures (new_calls ab_held (fst (_release release_failing ab_held))))
    <= 2 /\
  _held_locks (self (fst (_release release_failing ab_held))) = [].
Proof.
  pose proof (@teardown_outcomes nat release_failing ab_held
                (fst (_release release_failing ab_held))
                (Raise (ReleaseError
                          [Exc "CannotRelease:b"; Exc "CannotRelease:a"]))
                eq_refl) as H.
  simpl is_ReleaseError in H. cbv iota in H.
  destruct H as (_ & _ & Hlen & Hall & Hheld & _). auto.
Defined.

(** An exit after a failed block with an interrupted release: an error is
    observed. *)
Lemma exit_never_suppresses_witness :
  exists e',
    exit_observed (Some (Exc "BodyError"))
      (snd (__exit__ release_interrupted (Some (Exc "BodyError")) ab_held))
    = Raise e' /\
    (e' = Exc "BodyError" \/ is_Exception e' = false).
Proof.
  exact (proj2 (@exit_never_suppresses nat release_interrupted
                  (Some (Exc "BodyError")) ab_held
                  (fst (__exit__ release_interrupted (Some (Exc "BodyError"))
                          ab_held))
                  (snd (__exit__ release_interrupted (Some (Exc "BodyError"))
                          ab_held))
                  (surjective_pairing _))
           (Exc "BodyError") eq_refl).
Defined.

(** Entry on a, b, c where acquiring a fails, with releases that would be
    interrupted: one call, the acquisition error. *)
Lemma first_acquire_failure_needs_no_rollback_witness :
  snd (__enter__ (acquire_failing_on "a") release_interrupted abc_guard)
    = Raise (Exc "AcquireError") /\
  new_calls abc_guard
    (fst (__enter__ (acquire_failing_on "a") release_interrupted abc_guard))
    = [EvAcquire (vol "a") (Some (Exc "AcquireError"))].
Proof.
  destruct (@first_acquire_failure_needs_no_rollback nat
              (acquire_failing_on "a") release_interrupted abc_guard
              (fst (__enter__ (acquire_failing_on "a") release_interrupted
                      abc_guard))
              (snd (__enter__ (acquire_failing_on "a") release_interrupted
                      abc_guard))
              (vol "a") (Exc "AcquireError")
              eq_refl (surjective_pairing _) eq_refl)
    as (H1 & H2 & _).
  split; assumption.
Defined.


(** In the working list of b, a, the lock a comes before b. *)
Lemma working_list_respects_lt_witness :
  exists a b c,
    sorted (py_set (@rev Lock) [vol "b"; vol "a"])
    = a ++ vol "a" :: b ++ vol "b" :: c.
Proof.
  refine (@working_list_respects_lt (@rev Lock) rev_is_set_order
            [vol "b"; vol "a"] (vol "a") (vol "b") _ _ eq_refl).
  - right. left. reflexivity.
  - left. reflexivity.
Defined.

(** The working list of b, a, a is strictly increasing. *)
Lemma working_list_strict_iff_no_tie_witness :
  StronglySorted (fun a b => __lt__ a b = true)
    (sorted (py_set (@rev Lock) [vol "b"; vol "a"; vol "a"])).
Proof.
  refine (proj2 (@working_list_strict_iff_no_tie (@rev Lock) rev_is_set_order
                   [vol "b"; vol "a"; vol "a"]) _).
  intros x y Hx Hy. simpl in Hx, Hy.
  repeat (destruct Hx as [Hx | Hx]; [rewrite <- Hx|]); try contradiction;
    repeat (destruct Hy as [Hy | Hy]; [rewrite <- Hy|]); try contradiction;
    intros E; try reflexivity; discriminate.
Defined.

(* ===================================================================== *)
(** * The amended claims on sample guards *)
(* ===================================================================== *)

(** Entry on a, b, c where acquiring c fails.  With rollback releases that
    fail inside [Exception], the acquisition error is raised, b then a are
    released and nothing is held; with rollback releases interrupted by
    [KeyboardInterrupt], the interrupt is raised. *)
Lemma enter_rollback_on_acquire_failure_witness :
  rollback_claim abc_guard
    (fst (__enter__ (acquire_failing_on "c") release_failing abc_guard))
    (snd (__enter__ (acquire_failing_on "c") release_failing abc_guard))
    3 (Exc "AcquireError") /\
  snd (__enter__ (acquire_failing_on "c") release_interrupted abc_guard)
    = Raise (BaseExc "KeyboardInterrupt").
Proof.
  split.
  - destruct (@enter_rollback_on_acquire_failure nat
                (acquire_failing_on "c") release_failing abc_guard
                (fst (__enter__ (acquire_failing_on "c") release_failing
                        abc_guard))
                (snd (__enter__ (acquire_failing_on "c") release_failing
                        abc_guard))
                3 (vol "c") (Exc "AcquireError")
                eq_refl (surjective_pairing _) (le_S _ _ (le_S _ _ (le_n 1)))
                eq_refl) as (_ & _ & Hok & _).
    apply Hok. unfold release_errors_Exception. vm_compute.
    repeat constructor.
  - destruct (@enter_rollback_on_acquire_failure nat
                (acquire_failing_on "c") release_interrupted abc_guard
                (fst (__enter__ (acquire_failing_on "c") release_interrupted
                        abc_guard))
                (snd (__enter__ (acquire_failing_on "c") release_interrupted
                        abc_guard))
                3 (vol "c") (Exc "AcquireError")
                eq_refl (surjective_pairing _) (le_S _ _ (le_S _ _ (le_n 1)))
                eq_refl) as (_ & _ & _ & Hbad).
    apply (Hbad (vol "b") (BaseExc "KeyboardInterrupt")).
    + vm_compute. auto 10.
    + reflexivity.
Defined.

(** Exit after a failed block.  With releases that fail inside [Exception]
    the caller observes the error of the block; with a release interrupted
    by [KeyboardInterrupt] the caller observes the interrupt. *)
Lemma exit_keeps_body_error_witness :
  exit_observed (Some (Exc "BodyError"))
    (snd (__exit__ release_failing (Some (Exc "BodyError")) ab_held))
    = Raise (Exc "BodyError") /\
  exit_observed (Some (Exc "BodyError"))
    (snd (__exit__ release_interrupted (Some (Exc "BodyError")) ab_held))
    = Raise (BaseExc "KeyboardInterrupt").
Proof.
  split.
  - destruct (@exit_keeps_body_error nat release_failing ab_held
                (fst (__exit__ release_failing (Some (Exc "BodyError")) ab_held))
                (snd (__exit__ release_failing (Some (Exc "BodyError")) ab_held))
                (Exc "BodyError") (surjective_pairing _)) as (Hok & _).
    apply Hok. unfold release_errors_Exception. vm_compute.
    repeat constructor.
  - destruct (@exit_keeps_body_error nat release_interrupted ab_held
                (fst (__exit__ release_interrupted (Some (Exc "BodyError"))
                        ab_held))
                (snd (__exit__ release_interrupted (Some (Exc "BodyError"))
                        ab_held))
                (Exc "BodyError") (surjective_pairing _)) as (_ & Hbad).
    apply (Hbad (vol "b") (BaseExc "KeyboardInterrupt")).
    + vm_compute. auto 10.
    + reflexivity.
Defined.

(** Exit after a successful block.  With both releases failing inside
    [Exception], one [ReleaseError] with the error of b then the error of a
    is raised; with a release interrupted by [KeyboardInterrupt], the
    interrupt is raised as it is. *)
Lemma exit_raises_aggregate_ReleaseError_witness :
  snd (__exit__ release_failing None ab_held)
    = Raise (ReleaseError
               (failures
                  (new_calls ab_held
                     (fst (__exit__ release_failing None ab_held))))) /\
  snd (__exit__ release_interrupted None ab_held)
    = Raise (BaseExc "KeyboardInterrupt").
Proof.
  split.
  - destruct (@exit_raises_aggregate_ReleaseError nat release_failing ab_held
                (fst (__exit__ release_failing None ab_held))
                (snd (__exit__ release_failing None ab_held))
                (surjective_pairing _)) as (Hok & _).
    + vm_compute. discriminate.
    + apply Hok. unfold release_errors_Exception. vm_compute.
      repeat constructor.
  - destruct (@exit_raises_aggregate_ReleaseError nat release_interrupted
                ab_held
                (fst (__exit__ release_interrupted None ab_held))
                (snd (__exit__ release_interrupted None ab_held))
                (surjective_pairing _)) as (_ & Hbad).
    + vm_compute. discriminate.
    + apply (Hbad (vol "b") (BaseExc "KeyboardInterrupt")).
      * vm_compute. auto 10.
      * reflexivity.
Defined.

(** Entry on a, b with every acquisition succeeding, then exit with every
    release failing inside [Exception]: b then a are released. *)
Lemma exit_releases_in_reverse_acquisition_order_witness :
  released
    (new_calls
       (fst (__enter__ acquire_ok release_failing
               (guard [vol "a"; vol "b"] [])))
       (fst (__exit__ release_failing None
               (fst (__enter__ acquire_ok release_failing
                       (guard [vol "a"; vol "b"] []))))))
    = rev (acquired
             (new_calls (guard [vol "a"; vol "b"] [])
                (fst (__enter__ acquire_ok release_failing
                        (guard [vol "a"; vol "b"] []))))).
Proof.
  destruct (@exit_releases_in_reverse_acquisition_order nat
              acquire_ok release_failing (guard [vol "a"; vol "b"] [])
              (fst (__enter__ acquire_ok release_failing
                      (guard [vol "a"; vol "b"] [])))
              (fst (__enter__ acquire_ok release_failing
                      (guard [vol "a"; vol "b"] [])))
              (fst (__exit__ release_failing None
                      (fst (__enter__ acquire_ok release_failing
                              (guard [vol "a"; vol "b"] [])))))
              (Return tt) None
              (snd (__exit__ release_failing None
                      (fst (__enter__ acquire_ok release_failing
                              (guard [vol "a"; vol "b"] [])))))
              eq_refl eq_refl eq_refl eq_refl (surjective_pairing _))
    as (_ & _ & _ & Hrel & _).
  apply Hrel. unfold release_errors_Exception. vm_compute.
  repeat constructor.
Defined.

(** Entry on the working list of b, a, a where acquiring b fails: the calls
    are the acquisition of a, then the failing one of b. *)
Lemma acquisition_order_non_decreasing_witness :
  StronglySorted key_le
    (acquired
       (new_calls
          (fst (__init__ (@rev Lock) [vol "b"; vol "a"; vol "a"] blank))
          (fst (__enter__ (acquire_failing_on "b") release_ok
                  (fst (__init__ (@rev Lock) [vol "b"; vol "a"; vol "a"]
                          blank)))))) /\
  acquired
    (new_calls
       (fst (__init__ (@rev Lock) [vol "b"; vol "a"; vol "a"] blank))
       (fst (__enter__ (acquire_failing_on "b") release_ok
               (fst (__init__ (@rev Lock) [vol "b"; vol "a"; vol "a"]
                       blank)))))
  = [vol "a"; vol "b"].
Proof.
  split; [|reflexivity].
  destruct (@acquisition_order_non_decreasing nat
              (acquire_failing_on "b") release_ok (@rev Lock) rev_is_set_order
              [vol "b"; vol "a"; vol "a"] blank
              (fst (__init__ (@rev Lock) [vol "b"; vol "a"; vol "a"] blank))
              (fst (__enter__ (acquire_failing_on "b") release_ok
                      (fst (__init__ (@rev Lock) [vol "b"; vol "a"; vol "a"]
                              blank))))
              (snd (__enter__ (acquire_failing_on "b") release_ok
                      (fst (__init__ (@rev Lock) [vol "b"; vol "a"; vol "a"]
                              blank))))
              eq_refl (surjective_pairing _))
    as (_ & _ & _ & _ & _ & Hs).
  exact Hs.
Defined.

(** Entry on a, b, c then exit with releases failing inside [Exception]:
    the guard object is as before the entry. *)
Lemma guard_returns_to_constructed_state_witness :
  self
    (fst (__exit__ release_failing None
            (fst (__enter__ acquire_ok release_failing abc_guard))))
  = self abc_guard.
Proof.
  destruct (@guard_returns_to_constructed_state nat acquire_ok
              release_failing abc_guard
              (fst (__enter__ acquire_ok release_failing abc_guard))
              (fst (__enter__ acquire_ok release_failing abc_guard))
              (fst (__exit__ release_failing None
                      (fst (__enter__ acquire_ok release_failing abc_guard))))
              (Return tt) None
              (snd (__exit__ release_failing None
                      (fst (__enter__ acquire_ok release_failing abc_guard))))
              eq_refl eq_refl eq_refl (surjective_pairing _)) as (Hok & _).
  apply Hok. unfold release_errors_Exception. vm_compute. repeat constructor.
Defined.

(** A second exit of a guard on a, b after an exit whose releases failed
    inside [Exception]. *)
Lemma second_exit_is_noop_witness :
  __exit__ release_failing None (fst (__exit__ release_failing None ab_held))
  = (fst (__exit__ release_failing None ab_held), Return None).
Proof.
  apply (@second_exit_is_noop nat release_failing None None ab_held
           (fst (__exit__ release_failing None ab_held))
           (snd (__exit__ release_failing None ab_held))
           (surjective_pairing _)).
  unfold release_errors_Exception. vm_compute. repeat constructor.
Defined.

(** A second entry of a guard that holds a, b.  When every acquisition
    succeeds the locks are held twice; when acquiring b fails, the rollback
    (errors inside [Exception]) releases a, then b and a held from before,
    and nothing is held. *)
Lemma entry_on_held_guard_witness :
  _held_locks (self (fst (__enter__ acquire_ok release_ok ab_held)))
    = [vol "a"; vol "b"; vol "a"; vol "b"] /\
  (_held_locks
     (self (fst (__enter__ (acquire_failing_on "b") release_failing ab_held)))
     = [] /\
   released
     (new_calls ab_held
        (fst (__enter__ (acquire_failing_on "b") release_failing ab_held)))
     = rev (_held_locks (self ab_held)
              ++ acquired_ok
                   (new_calls ab_held
                      (fst (__enter__ (acquire_failing_on "b")
                              release_failing ab_held))))).
Proof.
  split.
  - exact (proj1 (proj1 (@entry_on_held_guard nat acquire_ok release_ok
                           ab_held
                           (fst (__enter__ acquire_ok release_ok ab_held))
                           (Return tt) eq_refl) tt eq_refl)).
  - apply (proj2 (@entry_on_held_guard nat (acquire_failing_on "b")
                    release_failing ab_held
                    (fst (__enter__ (acquire_failing_on "b") release_failing
                            ab_held))
                    (snd (__enter__ (acquire_failing_on "b") release_failing
                            ab_held))
                    (surjective_pairing _))
             (Exc "AcquireError") eq_refl).
    unfold release_errors_Exception. vm_compute. repeat constructor.
Defined.

(** A [with] statement on b, a, a whose block fails and whose releases fail
    inside [Exception]: both locks are released and none is held. *)
Lemma with_statement_releases_what_it_acquired_witness :
  _held_locks
    (self (fst (with_context acquire_ok release_failing (@rev Lock)
                  [vol "b"; vol "a"; vol "a"]
                  (fun w => (w, Some (Exc "BodyError"))) blank))) = [] /\
  released
    (new_calls blank
       (fst (with_context acquire_ok release_failing (@rev Lock)
               [vol "b"; vol "a"; vol "a"]
               (fun w => (w, Some (Exc "BodyError"))) blank)))
  = rev (acquired_ok
           (new_calls blank
              (fst (with_context acquire_ok release_failing (@rev Lock)
                      [vol "b"; vol "a"; vol "a"]
                      (fun w => (w, Some (Exc "BodyError"))) blank)))).
Proof.
  apply (proj2 (@with_statement_releases_what_it_acquired nat acquire_ok
                  release_failing (@rev Lock) [vol "b"; vol "a"; vol "a"]
                  (fun w => (w, Some (Exc "BodyError"))) blank _ _
                  (surjective_pairing _))).
  unfold release_errors_Exception. vm_compute. repeat constructor.
Defined.
